(** * xarray-csv-reader: column classification and reshaping

    A shallow embedding of [src/xarray-csv-reader.py] and the properties
    its specification states about it.

    The module has two functions.  [read_sweep_csv] counts the distinct
    values of every column, walks the columns from the least to the most
    varied one, takes columns as coordinates while the running product of
    their counts is below the number of rows, takes the rest as variables,
    and reshapes the frame into a labelled array.  [read_netlogo_table]
    calls it on a NetLogo BehaviorSpace export and adds the file's
    preamble to the attributes.

    pandas and xarray are collaborators of the code.  What the code asks
    of them is modelled here on finite data: a frame is the ordered list
    of its named columns, a dictionary is a [gmap], an n-dimensional
    array is its shape with a map from index tuples to cells.  Counts are
    natural numbers; the running product of the source never exceeds the
    square of the row count, so the 64-bit integers NumPy hands out do not
    wrap for any frame below 2^31 rows.  Floating point cells are outside
    the model. *)

From stdpp Require Import gmap strings list sorting pretty.
From Stdlib Require Import ZArith Ascii.

Set Default Proof Using "Type".
Set Warnings "-clear-no-such-hyp".

(** ** Cells, frames, exceptions *)

(** A cell as the reader types it: pandas gives every column one dtype,
    here integer, text or boolean. *)
Inductive scalar :=
| VInt (z : Z)
| VStr (s : string)
| VBool (b : bool).

#[global] Instance scalar_eq_dec : EqDecision scalar.
Proof. solve_decision. Defined.

(** A column is its label and its cells in row order; a frame is its
    columns in file order. *)
Abbreviation column := (string * list scalar)%type.
Abbreviation DataFrame := (list (string * list scalar)).

(** A Series of counts indexed by column label ([value_counts]). *)
Abbreviation Series := (list (string * nat)).

Inductive exn :=
| RuntimeError (msg : string)
| ValueError (msg : string)
| KeyError
| IndexError
| EmptyDataError
| ParserError.

Inductive result (A : Type) :=
| Ok (a : A)
| Raise (e : exn).
Arguments Ok {A} a.
Arguments Raise {A} e.

(** Exceptions propagate: [x ← r; k] runs [k] on the value of [r]. *)
#[global] Instance result_bind : MBind result := λ A B k r,
  match r with
  | Ok a => k a
  | Raise e => Raise e
  end.

(** ** The pandas primitives the classifier uses *)

(** [pd.unique]: the distinct values, in order of first appearance. *)
Fixpoint pd_unique (l : list scalar) : list scalar :=
  match l with
  | [] => []
  | x :: l' => x :: filter (λ y, y ≠ x) (pd_unique l')
  end.

(** [len(df)]: every column of a frame has one cell per row. *)
Definition len (df : DataFrame) : nat :=
  match df with
  | [] => 0
  | c :: _ => length c.2
  end.

(** [df.columns] *)
Definition columns (df : DataFrame) : list string := df.*1.

(** [df.apply(lambda x: len(pd.unique(x)))] *)
Definition unique_counts (df : DataFrame) : Series :=
  (λ c : column, (c.1, length (pd_unique c.2))) <$> df.

(** [Series.sort_values()] with its defaults.  pandas documents the result
    as the entries in ascending order of their values; with the default
    [kind='quicksort'] it promises nothing about entries of equal value.
    The classifier is therefore modelled over any sort with that
    contract. *)
Class SortValues := {
  sort_values : Series → Series;
  sort_values_perm : ∀ s, sort_values s ≡ₚ s;
  sort_values_sorted : ∀ s, Sorted (λ x y : string * nat, x.2 ≤ y.2) (sort_values s)
}.

(** An insertion sort, which leaves equal entries in their order. *)
Fixpoint insert_by_count (x : string * nat) (s : Series) : Series :=
  match s with
  | [] => [x]
  | y :: s' => if decide (x.2 ≤ y.2) then x :: y :: s' else y :: insert_by_count x s'
  end.

Definition insertion_sort (s : Series) : Series := foldr insert_by_count [] s.

(** The same with ties the other way round: an entry goes behind the
    entries of equal value that follow it. *)
Fixpoint insert_behind (x : string * nat) (s : Series) : Series :=
  match s with
  | [] => [x]
  | y :: s' => if decide (x.2 < y.2) then x :: y :: s' else y :: insert_behind x s'
  end.

Definition reversing_sort (s : Series) : Series := foldr insert_behind [] s.

(** ** The classification loop (source lines 35 to 66) *)

Record loop_state := {
  cumproduct : nat;
  coord : list string;
  var : list string;
  valid : bool
}.

Definition loop_init : loop_state :=
  {| cumproduct := 1; coord := []; var := []; valid := false |}.

(** One iteration of [for col, value in zip(keys, values)]. *)
Definition loop_body (length : nat) (st : loop_state) (cv : string * nat) : loop_state :=
  let '(col, value) := cv in
  if decide (value = 1) then st
  else if decide (cumproduct st < length) then
    let cp := cumproduct st * value in
    {| cumproduct := cp;
       coord := coord st ++ [col];
       var := var st;
       valid := if decide (cp = length) then true else valid st |}
  else
    {| cumproduct := cumproduct st;
       coord := coord st;
       var := var st ++ [col];
       valid := valid st |}.

Definition classify (length : nat) (value_counts : Series) : loop_state :=
  foldl (loop_body length) loop_init value_counts.

(** The message of the [RuntimeError], as the adjacent literals of the
    source concatenate (there is no blank between "have" and "the"). *)
Definition shape_message : string :=
  "Invalid data structure. Seems like you do not have" +:+
  "the correct number of columns in your dataframe to create a cross product." +:+
  " Try dropping a column with the skipcols argument".

(** [value_counts[value_counts == 1].keys()] *)
Definition meta_cols (value_counts : Series) : list string :=
  (filter (λ cv : string * nat, cv.2 = 1) value_counts).*1.

(** ** Reshaping: [df[coord+var].set_index(coord).to_xarray()] *)

(** An n-dimensional array: its shape and its cells by index tuple. *)
Record ndarray := {
  shape : list nat;
  cells : gmap (list nat) scalar
}.

(** The entries of the ['Metadata'] list of [read_netlogo_table]. *)
Inductive info_item :=
| Label (s : string)
| Value (v : scalar)
| Mapping (d : gmap string scalar).

Inductive attr :=
| AttrScalar (v : scalar)
| AttrList (l : list info_item).

(** An [xarray.Dataset]: dimension names, the labels along each
    dimension, the data variables and the attribute dictionary. *)
Record Dataset := {
  dims : list string;
  coords : list (string * list scalar);
  data_vars : list (string * ndarray);
  attrs : gmap string attr
}.

(** [df[names]]: the columns with these labels, in the order asked. *)
Definition select (df : DataFrame) (names : list string) : DataFrame :=
  names ≫= λ n, filter (λ c : column, c.1 = n) df.

(** The order pandas sorts the labels of an index level in: numbers by
    value, text by code point, [False] before [True]. *)
Definition scalar_leb (x y : scalar) : bool :=
  match x, y with
  | VBool a, VBool b => implb a b
  | VBool _, _ => true
  | VInt _, VBool _ => false
  | VInt a, VInt b => (a <=? b)%Z
  | VInt _, VStr _ => true
  | VStr a, VStr b => String.leb a b
  | VStr _, _ => false
  end.

(** The level of a column in a [MultiIndex]: its distinct values, sorted. *)
Definition level (vals : list scalar) : list scalar :=
  merge_sort (λ x y, scalar_leb x y) (pd_unique vals).

(** The position of a label along an axis. *)
Definition code (labels : list scalar) (v : scalar) : option nat :=
  fst <$> list_find (λ y, y = v) labels.

(** The codes of a column: for each row, the position of its value in the
    column's level. *)
Definition codes (vals : list scalar) : list nat :=
  (λ v, default 0 (code (level vals) v)) <$> vals.

(** Rows from columns (and columns from rows): the [i]-th tuple collects
    the [i]-th entry of each of the lists, all of length [n]. *)
Fixpoint transpose {A} (n : nat) (ls : list (list A)) : list (list A) :=
  match ls with
  | [] => replicate n []
  | l :: ls' => zip_with cons l (transpose n ls')
  end.

(** [data[indexer] = values]: one cell per row, later rows win. *)
Definition assign (indexer : list (list nat)) (values : list scalar)
    : gmap (list nat) scalar :=
  foldl (λ m kv, <[kv.1 := kv.2]> m) ∅ (zip indexer values).

(** [set_index(coord).to_xarray()] on the index columns [index] and the
    remaining columns [data].  One index column gives a plain index: the
    axis carries its values in row order.  Several give a [MultiIndex]:
    each axis carries the level of its column, a row goes to the cell of
    its codes, and xarray refuses an index with a repeated tuple. *)
Definition to_xarray (index data : DataFrame) : result Dataset :=
  match index with
  | [] => Raise (ValueError "Must pass non-zero number of levels/codes")
  | [c] =>
      let n := length c.2 in
      Ok {| dims := [c.1];
            coords := [c];
            data_vars :=
              (λ d : column, (d.1, {| shape := [n];
                                      cells := assign ((λ i, [i]) <$> seq 0 n) d.2 |}))
                <$> data;
            attrs := ∅ |}
  | _ =>
      let levels := (λ c : column, (c.1, level c.2)) <$> index in
      let indexer := transpose (len index) ((λ c : column, codes c.2) <$> index) in
      if decide (NoDup indexer) then
        Ok {| dims := index.*1;
              coords := levels;
              data_vars :=
                (λ d : column, (d.1, {| shape := (λ l : column, length l.2) <$> levels;
                                        cells := assign indexer d.2 |}))
                  <$> data;
              attrs := ∅ |}
      else
        Raise (ValueError
          "cannot convert a DataFrame with a non-unique MultiIndex into xarray")
  end.

(** [df.loc[0, names].values] *)
Definition loc0 (df : DataFrame) (names : list string) : result (list scalar) :=
  match mapM (λ c : column, c.2 !! 0) (select df names) with
  | Some vs => Ok vs
  | None => Raise KeyError
  end.

(** [dict(zip(keys, values))]: a later pair replaces an earlier one. *)
Definition dict_zip {V} (keys : list string) (values : list V) : gmap string V :=
  foldl (λ m kv, <[kv.1 := kv.2]> m) ∅ (zip keys values).

(** [ds.assign_attrs(d)] *)
Definition assign_attrs (ds : Dataset) (d : gmap string attr) : Dataset :=
  {| dims := dims ds; coords := coords ds; data_vars := data_vars ds;
     attrs := d ∪ attrs ds |}.

(** ** [read_sweep_csv] *)

(** [pd.read_csv(path, usecols=usecols, **kwargs)], where [path] stands
    for the whole table the reader parses from the file under [kwargs]:
    [usecols] keeps the columns whose label it holds, in file order. *)
Definition read_csv_usecols (path : DataFrame) (usecols : option (gset string))
    : DataFrame :=
  match usecols with
  | None => path
  | Some u => filter (λ c : column, c.1 ∈ u) path
  end.

(** Lines 33 to 80 of the source, on the frame that was read. *)
Definition classify_and_build `{SortValues} (df : DataFrame) : result Dataset :=
  let value_counts := sort_values (unique_counts df) in
  let length := len df in
  let st := classify length value_counts in
  if valid st then
    let meta := meta_cols value_counts in
    ds ← to_xarray (select df (coord st)) (select df (var st));
    row0 ← loc0 df meta;
    Ok (assign_attrs ds (dict_zip meta (AttrScalar <$> row0)))
  else Raise (RuntimeError shape_message).

(** Lines 22 to 30: the frame the function reads.  The labels come from
    a read of the header alone, the skipped ones are taken out as a set
    difference, and the file is read again with what is left. *)
Definition frame_read (path : DataFrame) (skipcols : option (list string))
    : DataFrame :=
  let columns := columns path in
  let usecols :=
    match skipcols with
    | Some skip => Some (list_to_set columns ∖ list_to_set skip)
    | None => None
    end in
  read_csv_usecols path usecols.

Definition read_sweep_csv `{SortValues} (path : DataFrame)
    (skipcols : option (list string)) : result Dataset :=
  let df := frame_read path skipcols in
  classify_and_build df.

(** [read_sweep_csv] above is the function on a table the reader has
    parsed.  A file with no column at all is no such table: the first
    read, [pd.read_csv(path, nrows=0, **kwargs)], finds nothing to parse
    and raises.  Where a file is derived from another one by taking
    columns out, the call is modelled from that read on. *)
Definition read_csv_header (path : DataFrame) : result (list string) :=
  match path with
  | [] => Raise EmptyDataError
  | _ => Ok (columns path)
  end.

Definition read_sweep_csv_file `{SortValues} (path : DataFrame)
    (skipcols : option (list string)) : result Dataset :=
  _ ← read_csv_header path;
  read_sweep_csv path skipcols.

(** ** The reader on a file with a preamble, and [read_netlogo_table] *)

(** The records of a CSV file as the tokeniser splits them: one list of
    fields per line. *)
Abbreviation csv := (list (list string)).

(** The reader is modelled on the files the examples need: records as
    long as the header, and fields that are integers, booleans or text.
    pandas pads a shorter record with missing values and reads decimal
    fractions as floats; neither has a cell in this model, and no general
    statement below is made about such files. *)

Definition digit (a : ascii) : option Z :=
  let n := nat_of_ascii a in
  if decide (48 ≤ n ≤ 57) then Some (Z.of_nat (n - 48)) else None.

Fixpoint parse_digits (acc : Z) (s : string) : option Z :=
  match s with
  | EmptyString => Some acc
  | String a s' => d ← digit a; parse_digits (10 * acc + d)%Z s'
  end.

Definition parse_int (s : string) : option Z :=
  match s with
  | EmptyString => None
  | String "-"%char EmptyString => None
  | String "+"%char EmptyString => None
  | String "-"%char s' => Z.opp <$> parse_digits 0 s'
  | String "+"%char s' => parse_digits 0 s'
  | _ => parse_digits 0 s
  end.

Definition lower (a : ascii) : ascii :=
  let n := nat_of_ascii a in
  if decide (65 ≤ n ≤ 90) then ascii_of_nat (n + 32) else a.

Fixpoint lowercase (s : string) : string :=
  match s with
  | EmptyString => EmptyString
  | String a s' => String (lower a) (lowercase s')
  end.

(** The reader takes [true] and [false] in any mix of cases. *)
Definition parse_bool (s : string) : option bool :=
  if decide (lowercase s = "true") then Some true
  else if decide (lowercase s = "false") then Some false
  else None.

(** The dtype the reader gives a column: integer when every field is one,
    else boolean when every field is one, else text. *)
Definition infer_column (fields : list string) : list scalar :=
  match mapM parse_int fields with
  | Some zs => VInt <$> zs
  | None =>
      match mapM parse_bool fields with
      | Some bs => VBool <$> bs
      | None => VStr <$> fields
      end
  end.

(** [pd.read_csv(path, skiprows=skiprows, nrows=nrows)]: the first record
    after the skipped ones is the header, the following ones (at most
    [nrows] of them) are the rows.  Where a record is not as long as the
    header the model stops and answers with a parser error; pandas does
    so for some such files only. *)
Definition read_csv (path : csv) (skiprows : nat) (nrows : option nat)
    : result DataFrame :=
  match drop skiprows path with
  | [] => Raise EmptyDataError
  | header :: records =>
      let records := from_option (λ n, take n records) records nrows in
      if decide (Forall (λ r, length r = length header) records) then
        Ok (zip header (infer_column <$> transpose (length header) records))
      else Raise ParserError
  end.

(** [df.values]: the rows of the frame. *)
Definition values (df : DataFrame) : list (list scalar) :=
  transpose (len df) df.*2.

Definition read_netlogo_table `{SortValues} (path : csv) : result Dataset :=
  table ← read_csv path 6 None;
  ds ← read_sweep_csv table (Some ["[run number]"]);
  df ← read_csv path 0 (Some 3);
  let model_info := (Label <$> columns df) ++ (Value <$> concat (values df)) in
  df ← read_csv path 4 (Some 1);
  row ← from_option Ok (Raise IndexError) (values df !! 0);
  let model_info := model_info ++ [Mapping (dict_zip (columns df) row)] in
  Ok {| dims := dims ds; coords := coords ds; data_vars := data_vars ds;
        attrs := <["Metadata" := AttrList model_info]> (attrs ds) |}.

(** ** Two sorts with the contract of [sort_values] *)

(** The insertion sort is the instance the example tables are run with. *)

#[global, refine] Instance stable_sort : SortValues :=
  {| sort_values := insertion_sort |}.
Proof.
  - assert (∀ x s, insert_by_count x s ≡ₚ x :: s) as Hins.
    { intros x s. induction s as [|y s IH]; simpl; [done|].
      case_decide; [done|]. rewrite IH. apply Permutation_swap. }
    intros s. induction s as [|x s IH]; simpl; [done|].
    by rewrite Hins, IH.
  - assert (∀ x s, Sorted (λ a b : string * nat, a.2 ≤ b.2) s →
              Sorted (λ a b : string * nat, a.2 ≤ b.2) (insert_by_count x s)) as Hins.
    { intros x s. induction 1 as [|y s Hs IH Hhd]; simpl; [repeat constructor|].
      case_decide; [repeat constructor; done|].
      constructor; [done|].
      destruct Hhd as [|z s' Hz]; simpl in *; [constructor; lia|].
      case_decide; constructor; lia. }
    intros s. induction s as [|x s IH]; simpl; [constructor|].
    by apply Hins.
Defined.

#[refine] Definition unstable_sort : SortValues :=
  {| sort_values := reversing_sort |}.
Proof.
  - assert (∀ x s, insert_behind x s ≡ₚ x :: s) as Hins.
    { intros x s. induction s as [|y s IH]; simpl; [done|].
      case_decide; [done|]. rewrite IH. apply Permutation_swap. }
    intros s. induction s as [|x s IH]; simpl; [done|].
    by rewrite Hins, IH.
  - assert (∀ x s, Sorted (λ a b : string * nat, a.2 ≤ b.2) s →
              Sorted (λ a b : string * nat, a.2 ≤ b.2) (insert_behind x s)) as Hins.
    { intros x s. induction 1 as [|y s Hs IH Hhd]; simpl; [repeat constructor|].
      case_decide; [repeat constructor; [done..|lia]|].
      constructor; [done|].
      destruct Hhd as [|z s' Hz]; simpl in *; [constructor; lia|].
      case_decide; constructor; lia. }
    intros s. induction s as [|x s IH]; simpl; [constructor|].
    by apply Hins.
Defined.

(** ** What the specification says, in its own terms *)

Definition product (l : list nat) : nat := foldr Nat.mul 1 l.

(** The columns that vary, in the order the loop meets them. *)
Definition varying (value_counts : Series) : Series :=
  filter (λ cv : string * nat, cv.2 ≠ 1) value_counts.

(** The validity flag as the specification words it: stepping through
    the cardinalities [cs] and multiplying while the running product is
    below [length], the running product becomes [length] after some
    step. *)
Definition reaches (length : nat) (cs : list nat) : Prop :=
  ∃ k, 0 < k ≤ List.length cs
     ∧ (∀ j, j < k → product (take j cs) < length)
     ∧ product (take k cs) = length.

(** Some subset of the columns has cardinalities that multiply to the
    row count. *)
Definition some_subset_matches (df : DataFrame) : Prop :=
  ∃ sub : Series, sub ⊆+ unique_counts df ∧ product sub.*2 = len df.

(** [ds[name].sel(...)]: the cell of variable [name] at the given label
    along each dimension. *)
Definition sel (ds : Dataset) (name : string) (labels : list scalar)
    : option scalar :=
  idx ← mapM (λ al : column * scalar, code al.1.2 al.2) (zip (coords ds) labels);
  arr ← (list_find (λ d : string * ndarray, d.1 = name) (data_vars ds));
  cells arr.2.2 !! idx.

(** [needle in hay] on strings. *)
Fixpoint contains (needle hay : string) : bool :=
  if String.prefix needle hay then true
  else match hay with
       | EmptyString => false
       | String _ hay' => contains needle hay'
       end.

(** A message carries the context the specification asks for when the
    row count, every column considered and every cardinality can be read
    off it. *)
Definition carries_context (msg : string) (df : DataFrame) : Prop :=
  contains (pretty (len df)) msg
  ∧ Forall (λ cv : string * nat, contains cv.1 msg ∧ contains (pretty cv.2) msg)
      (unique_counts df).

(** The column [name] taken out of the table. *)
Definition remove_column (name : string) (df : DataFrame) : DataFrame :=
  filter (λ c : column, c.1 ≠ name) df.

(** ** The claims of the specification, as it states them *)

(** Failure is decided by the subsets of the columns. *)
Definition fails_exactly_without_subset `{SortValues} (path : DataFrame) : Prop :=
  read_sweep_csv path None = Raise (RuntimeError shape_message)
  ↔ ¬ some_subset_matches path.

(** The error of a failed classification carries its context. *)
Definition error_carries_context `{SortValues} (path : DataFrame) : Prop :=
  ∀ msg, read_sweep_csv path None = Raise (RuntimeError msg) →
    carries_context msg path.

(** The rows of a table with the columns [A], [B] and [V], in any order,
    are the full product of [ca] values of [A] and [cb] values of [B]:
    there are [ca * cb] rows and no pair of values is on two of them. *)
Definition cross_product_table (df : DataFrame) (A B V : string)
    (colA colB colV : list scalar) (ca cb : nat) : Prop :=
  df ≡ₚ [(A, colA); (B, colB); (V, colV)]
  ∧ NoDup [A; B; V]
  ∧ length colA = ca * cb ∧ length colB = ca * cb ∧ length colV = ca * cb
  ∧ length (pd_unique colA) = ca
  ∧ length (pd_unique colB) = cb
  ∧ NoDup (zip colA colB).

(** The call returns the [ca] by [cb] grid of [V] over [A] and [B]: the
    dimensions are [A] then [B], each labelled with the sorted values of
    its column, the only data variable is [V], and the cell at the labels
    of a row is the value of [V] on that row. *)
Definition reshapes_as_grid `{SortValues} (df : DataFrame) (A B V : string)
    (colA colB colV : list scalar) (ca cb : nat) : Prop :=
  ∃ ds, read_sweep_csv df None = Ok ds
      ∧ dims ds = [A; B]
      ∧ coords ds = [(A, level colA); (B, level colB)]
      ∧ (λ c : column, length c.2) <$> coords ds = [ca; cb]
      ∧ (data_vars ds).*1 = [V]
      ∧ (λ d : string * ndarray, shape d.2) <$> data_vars ds = [[ca; cb]]
      ∧ ∀ i a b v, colA !! i = Some a → colB !! i = Some b → colV !! i = Some v →
          sel ds V [a; b] = Some v.

(** The round trip as the specification states it, for 3 values of [A]
    and 4 of [B]. *)
Definition round_trip_as_stated `{SortValues} (df : DataFrame) (A B V : string)
    (colA colB colV : list scalar) : Prop :=
  cross_product_table df A B V colA colB colV 3 4 →
  reshapes_as_grid df A B V colA colB colV 3 4.

(** Skipping ['extra'] on a file that has such a column gives what the
    file without the column gives. *)
Definition skip_is_removal `{SortValues} (path : DataFrame) : Prop :=
  "extra" ∈ columns path →
  read_sweep_csv_file path (Some ["extra"])
  = read_sweep_csv_file (remove_column "extra" path) None.

(** The preamble parse leaves the constants of the classification as
    they were. *)
Definition preamble_leaves_constants `{SortValues} (path : csv) : Prop :=
  ∀ table ds0 ds,
    read_csv path 6 None = Ok table →
    read_sweep_csv table (Some ["[run number]"]) = Ok ds0 →
    read_netlogo_table path = Ok ds →
    ∀ k v, attrs ds0 !! k = Some v → attrs ds !! k = Some v.

(** ** Tables used as examples *)

(** No two varying columns of these tables have the same cardinality
    ([tied] apart), so every ascending sort orders them alike. *)

(** Three rows, [X] with two values and [Y] with three. *)
Definition greedy_miss : DataFrame :=
  [("X", VInt <$> [0; 1; 1]%Z); ("Y", VInt <$> [0; 1; 2]%Z)].

(** Ten rows, [X] with two values and [Y] with three. *)
Definition ten_rows : DataFrame :=
  [("X", VInt <$> [0; 1; 0; 1; 0; 1; 0; 1; 0; 1]%Z);
   ("Y", VInt <$> [0; 1; 2; 0; 1; 2; 0; 1; 2; 0]%Z)].

(** One row. *)
Definition single_row : DataFrame :=
  [("seed", [VInt 7]); ("model", [VStr "fire"]); ("torus", [VBool true])].

(** Six rows over a 2 by 3 grid, with a constant column between the
    others and a column to skip. *)
Definition small_sweep : DataFrame :=
  [("result", VInt <$> [10; 11; 12; 13; 14; 15]%Z);
   ("extra", VInt <$> [1; 2; 3; 4; 5; 6]%Z);
   ("b", VStr <$> ["x"; "y"; "z"; "x"; "y"; "z"]);
   ("seed", VInt <$> [7; 7; 7; 7; 7; 7]%Z);
   ("a", VBool <$> [false; false; false; true; true; true])].

(** Twelve rows over a 3 by 4 grid, the variable first. *)
Definition grid : DataFrame :=
  [("V", VInt <$> [10; 11; 12; 13; 14; 15; 16; 17; 18; 19; 20; 21]%Z);
   ("B", VInt <$> [3; 2; 1; 0; 3; 2; 1; 0; 3; 2; 1; 0]%Z);
   ("A", VStr <$> ["p"; "p"; "p"; "p"; "q"; "q"; "q"; "q"; "r"; "r"; "r"; "r"])].

(** The same grid with a variable that takes two values only. *)
Definition grid_two_valued : DataFrame :=
  [("A", VStr <$> ["p"; "p"; "p"; "p"; "q"; "q"; "q"; "q"; "r"; "r"; "r"; "r"]);
   ("B", VInt <$> [3; 2; 1; 0; 3; 2; 1; 0; 3; 2; 1; 0]%Z);
   ("V", VBool <$> [true; false; false; false; false; false;
                     false; false; false; false; false; true])].

(** A BehaviorSpace export: four lines on the run, the world's bounds
    and their values, then the table. *)
Definition behaviorspace : csv :=
  [ ["BehaviorSpace results (NetLogo 6.2.0)"];
    ["fire.nlogo"];
    ["sweep"];
    ["01/02/2021 10:00:00:000 -0500"];
    ["min-pxcor"; "max-pxcor"; "min-pycor"; "max-pycor"];
    ["-16"; "16"; "-16"; "16"];
    ["[run number]"; "density"; "wind"; "[step]"; "burned"];
    ["1"; "10"; "north"; "100"; "5"];
    ["2"; "10"; "south"; "100"; "6"];
    ["3"; "20"; "north"; "100"; "7"];
    ["4"; "20"; "south"; "100"; "8"];
    ["5"; "30"; "north"; "100"; "9"];
    ["6"; "30"; "south"; "100"; "11"] ].

(** An export of a model with a constant global named [Metadata]. *)
Definition behaviorspace_clash : csv :=
  [ ["BehaviorSpace results (NetLogo 6.2.0)"];
    ["fire.nlogo"];
    ["sweep"];
    ["01/02/2021 10:00:00:000 -0500"];
    ["min-pxcor"; "max-pxcor"; "min-pycor"; "max-pycor"];
    ["-16"; "16"; "-16"; "16"];
    ["[run number]"; "density"; "wind"; "Metadata"; "burned"];
    ["1"; "10"; "north"; "7"; "5"];
    ["2"; "10"; "south"; "7"; "6"];
    ["3"; "20"; "north"; "7"; "7"];
    ["4"; "20"; "south"; "7"; "8"];
    ["5"; "30"; "north"; "7"; "9"];
    ["6"; "30"; "south"; "7"; "11"] ].

(** Twelve rows in which [B] and [V] both take six values: with [A]
    either of them completes a grid. *)
Definition tied : DataFrame :=
  [("A", VInt <$> [0; 0; 0; 0; 0; 0; 1; 1; 1; 1; 1; 1]%Z);
   ("B", VInt <$> [0; 1; 2; 3; 4; 5; 0; 1; 2; 3; 4; 5]%Z);
   ("V", VInt <$> [0; 1; 2; 3; 4; 5; 1; 2; 3; 4; 5; 0]%Z)].

(** A frame as the reader builds it: every column has a cell on every
    row. *)
Definition rectangular (df : DataFrame) : Prop :=
  Forall (λ c : column, length c.2 = len df) df.

(** A file whose only column is ['extra']. *)
Definition only_extra : DataFrame := [("extra", VInt <$> [1; 2; 3]%Z)].

(** A header with no row below it. *)
Definition header_only : DataFrame := [("a", []); ("b", [])].

(** Four rows on which [A] and [B] take two values each, both pairs
    twice over. *)
Definition repeated_pairs : DataFrame :=
  [("A", VInt <$> [0; 0; 1; 1]%Z);
   ("B", VStr <$> ["x"; "x"; "y"; "y"]);
   ("V", VInt <$> [5; 6; 7; 8]%Z)].

(** The message of xarray for an index with a repeated tuple. *)
Definition non_unique_message : string :=
  "cannot convert a DataFrame with a non-unique MultiIndex into xarray".

(** * Properties *)

(** ** The loop *)

Lemma product_app l1 l2 : product (l1 ++ l2) = product l1 * product l2.
Proof.
  induction l1 as [|x l1 IH]; simpl; [lia|]. rewrite IH. lia.
Qed.

Lemma classify_snoc n vc cv :
  classify n (vc ++ [cv]) = loop_body n (classify n vc) cv.
Proof. unfold classify. by rewrite foldl_app. Qed.

Lemma varying_snoc vc cv :
  varying (vc ++ [cv]) = varying vc ++ (if decide (cv.2 = 1) then [] else [cv]).
Proof.
  unfold varying. rewrite filter_app. f_equal.
  rewrite filter_cons, filter_nil. by repeat case_decide.
Qed.

(** What the loop has done once it is through [vc]: the coordinates are
    the first [k] of the varying columns and the variables are the
    others, the running product is the product of the first [k]
    cardinalities and was below [n] before each of them was taken,
    and the flag says whether it stopped on [n]. *)
Lemma classify_spec n vc :
  ∃ k, k ≤ length (varying vc)
     ∧ coord (classify n vc) = (take k (varying vc)).*1
     ∧ var (classify n vc) = (drop k (varying vc)).*1
     ∧ cumproduct (classify n vc) = product (take k (varying vc)).*2
     ∧ (∀ j, j < k → product (take j (varying vc)).*2 < n)
     ∧ (k < length (varying vc) → ¬ cumproduct (classify n vc) < n)
     ∧ (valid (classify n vc) = true
        ↔ 0 < k ∧ cumproduct (classify n vc) = n).
Proof.
  induction vc as [|[col value] vc IH] using rev_ind.
  { exists 0. simpl. split_and!; try done; try lia; naive_solver lia. }
  destruct IH as (k & Hk & Hcoord & Hvar & Hcp & Hbelow & Hstop & Hvalid).
  rewrite classify_snoc, varying_snoc. simpl.
  set (st := classify n vc) in *. set (nv := varying vc) in *.
  case_decide as Hone.
  { exists k. by rewrite app_nil_r. }
  case_decide as Hlt; simpl.
  - assert (k = length nv) as -> by lia.
    rewrite take_ge, drop_ge in * by lia.
    exists (S (length nv)). rewrite length_app. simpl.
    rewrite take_ge, drop_ge by (rewrite length_app; simpl; lia).
    rewrite !fmap_app, product_app, <-Hcp, Hcoord. simpl.
    split_and!; try done; try lia.
    + intros j Hj. destruct (decide (j = length nv)) as [->|].
      * rewrite take_app_le, take_ge by lia. by rewrite <-Hcp.
      * rewrite take_app_le by lia. apply Hbelow. lia.
    + case_decide as Heq; [split; [intros _; lia|done]|].
      split; [intros Hv; apply Hvalid in Hv; lia|intros [_ ?]; done].
  - exists k. rewrite length_app. simpl.
    rewrite take_app_le, drop_app_le by lia.
    rewrite fmap_app, Hcoord, Hvar. simpl.
    split_and!; try done; try lia.
    intros j Hj. rewrite take_app_le by lia. by apply Hbelow.
Qed.

(** The flag of the loop is the flag of the specification. *)
Lemma valid_reaches n vc :
  valid (classify n vc) = true ↔ reaches n (varying vc).*2.
Proof.
  destruct (classify_spec n vc)
    as (k & Hk & _ & _ & Hcp & Hbelow & Hstop & Hvalid).
  rewrite Hvalid. unfold reaches. rewrite length_fmap. split.
  - intros [Hpos Heq]. exists k. rewrite <-fmap_take.
    split_and!; try lia.
    intros j Hj. rewrite <-fmap_take. by apply Hbelow.
  - intros (k' & Hk' & Hbelow' & Heq').
    assert (k = k') as <-.
    { destruct (decide (k < k')) as [Hlt|Hge].
      - specialize (Hbelow' k Hlt). rewrite <-fmap_take, <-Hcp in Hbelow'.
        exfalso. apply Hstop; [lia|done].
      - destruct (decide (k' < k)) as [Hgt|]; [|lia].
        specialize (Hbelow k' Hgt). rewrite fmap_take in Hbelow. lia. }
    split; [lia|]. by rewrite Hcp, fmap_take.
Qed.

(** ** Selecting columns by label *)

Lemma unique_counts_names df : (unique_counts df).*1 = columns df.
Proof.
  unfold unique_counts, columns. rewrite <-list_fmap_compose.
  by apply list_fmap_ext.
Qed.

Lemma filter_none {A} (P : A → Prop) `{∀ x, Decision (P x)} (l : list A) :
  (∀ x, x ∈ l → ¬ P x) → filter P l = [].
Proof.
  induction l as [|x l IH]; intros HP; [done|].
  rewrite filter_cons_False by (apply HP; left).
  apply IH. intros y Hy. apply HP. by right.
Qed.

Lemma filter_label_unique (df : DataFrame) name vals :
  NoDup (columns df) → (name, vals) ∈ df →
  filter (λ c : column, c.1 = name) df = [(name, vals)].
Proof.
  unfold columns. induction df as [|[n v] df IH]; intros Hnd Hin.
  { by apply elem_of_nil in Hin. }
  rewrite fmap_cons in Hnd. apply NoDup_cons in Hnd as [Hn Hnd].
  rewrite filter_cons. simpl. apply elem_of_cons in Hin as [Heq|Hin].
  - injection Heq as <- <-. rewrite decide_True by done. f_equal.
    apply filter_none. intros [n' v'] Hin' ?.
    simplify_eq/=. apply Hn. apply list_elem_of_fmap. by exists (name, v').
  - rewrite decide_False; [by apply IH|].
    intros ->. apply Hn. apply list_elem_of_fmap. by exists (name, vals).
Qed.

(** With distinct labels, [df[names]] has exactly the columns asked for. *)
Lemma select_spec (df : DataFrame) names :
  NoDup (columns df) → names ⊆ columns df →
  Forall2 (λ n (c : column), c.1 = n ∧ c ∈ df) names (select df names).
Proof.
  intros Hnd. unfold select. induction names as [|n names IH]; intros Hsub.
  { constructor. }
  assert (n ∈ columns df) as Hn by set_solver.
  apply list_elem_of_fmap in Hn as [[n' vals] [-> Hin]].
  rewrite bind_cons. simpl. rewrite (filter_label_unique df n' vals) by done.
  constructor; [done|]. apply IH. set_solver.
Qed.

Lemma select_labels (df : DataFrame) names :
  NoDup (columns df) → names ⊆ columns df → (select df names).*1 = names.
Proof.
  intros Hnd Hsub. pose proof (select_spec df names Hnd Hsub) as Hsel.
  induction Hsel as [|n c ns cs [Hc _] _ IH]; [done|].
  rewrite fmap_cons, Hc. f_equal. apply IH. set_solver.
Qed.

(** Every label [df[names]] carries was asked for. *)
Lemma select_labels_subseteq (df : DataFrame) names :
  (select df names).*1 ⊆ names.
Proof.
  intros n Hn. apply list_elem_of_fmap in Hn as [c [-> Hc]].
  unfold select in Hc. apply list_elem_of_bind in Hc as (n & Hc & Hn).
  apply list_elem_of_filter in Hc as [<- _]. done.
Qed.

(** ** What the loop selects, in terms of the frame *)

Section classification.
Context `{SortValues}.

Lemma sorted_names df : (sort_values (unique_counts df)).*1 ≡ₚ columns df.
Proof. by rewrite sort_values_perm, unique_counts_names. Qed.

Lemma varying_names_subseteq (vc : Series) k :
  (take k (varying vc)).*1 ⊆ vc.*1 ∧ (drop k (varying vc)).*1 ⊆ vc.*1.
Proof.
  split; intros n Hn; apply list_elem_of_fmap in Hn as [cv [-> Hcv]];
    apply list_elem_of_fmap; exists cv; (split; [done|]);
    assert (cv ∈ varying vc) as Hin
      by (rewrite <-(take_drop k (varying vc)); set_solver);
    by apply list_elem_of_filter in Hin as [_ ?].
Qed.

Lemma classify_labels_subseteq df :
  let st := classify (len df) (sort_values (unique_counts df)) in
  coord st ⊆ columns df ∧ var st ⊆ columns df.
Proof.
  simpl. destruct (classify_spec (len df) (sort_values (unique_counts df)))
    as (k & _ & -> & -> & _).
  destruct (varying_names_subseteq (sort_values (unique_counts df)) k) as [H1 H2].
  split; intros n Hn; rewrite <-sorted_names; auto.
Qed.

(** The three lists the function builds hold every column once:
    coordinates, variables and constants are the varying columns
    followed by the constant ones. *)
Lemma classify_partition (vc : Series) n :
  coord (classify n vc) ++ var (classify n vc) ++ meta_cols vc ≡ₚ vc.*1.
Proof.
  destruct (classify_spec n vc) as (k & _ & -> & -> & _).
  rewrite app_assoc, <-fmap_app, take_drop. unfold meta_cols, varying.
  rewrite <-fmap_app. apply fmap_Permutation.
  rewrite Permutation_app_comm. apply filter_app_complement. 
Qed.
End classification.

(** ** Building the dataset *)

Lemma to_xarray_raises index data e :
  to_xarray index data = Raise e → ∃ msg, e = ValueError msg.
Proof.
  unfold to_xarray. destruct index as [|c [|c' index]]; [naive_solver..|].
  case_decide; naive_solver.
Qed.

Lemma to_xarray_ok index data ds :
  to_xarray index data = Ok ds →
  dims ds = index.*1 ∧ (data_vars ds).*1 = data.*1 ∧ attrs ds = ∅.
Proof.
  unfold to_xarray. destruct index as [|c [|c' index]]; [done|..].
  - intros [= <-]. simpl. split_and!; [done| |done].
    rewrite <-list_fmap_compose. by apply list_fmap_ext.
  - case_decide; [|done]. intros [= <-]. simpl. split_and!; [done| |done].
    rewrite <-list_fmap_compose. by apply list_fmap_ext.
Qed.

Lemma loc0_raises df names e : loc0 df names = Raise e → e = KeyError.
Proof. unfold loc0. case_match; naive_solver. Qed.

(** Storing values under distinct keys: each key holds the value that
    came with it. *)
Lemma insert_all_lookup `{Countable K} {V} (keys : list K) (vs : list V)
    (m : gmap K V) i k v :
  NoDup keys → keys !! i = Some k → vs !! i = Some v →
  foldl (λ m kv, <[kv.1 := kv.2]> m) m (zip keys vs) !! k = Some v.
Proof.
  revert vs i m. induction keys as [|k' keys IH]; intros vs i m Hnd Hk Hv; [done|].
  apply NoDup_cons in Hnd as [Hk' Hnd].
  destruct vs as [|v' vs]; [by destruct i|]. simpl.
  destruct i as [|i]; simplify_eq/=; [|by eapply IH].
  clear IH. revert vs m. induction keys as [|k'' keys IH]; intros vs m.
  { simpl. by rewrite lookup_insert_eq. }
  apply not_elem_of_cons in Hk' as [Hne Hk'].
  apply NoDup_cons in Hnd as [_ Hnd].
  destruct vs as [|v'' vs]; simpl; [by rewrite lookup_insert_eq|].
  rewrite insert_insert_ne by done. by apply IH.
Qed.

Lemma dict_zip_lookup {V} (keys : list string) (vs : list V) i k v :
  NoDup keys → keys !! i = Some k → vs !! i = Some v →
  dict_zip keys vs !! k = Some v.
Proof. apply insert_all_lookup. Qed.

Lemma assign_lookup indexer vs i key v :
  NoDup indexer → indexer !! i = Some key → vs !! i = Some v →
  assign indexer vs !! key = Some v.
Proof. apply insert_all_lookup. Qed.

Lemma dict_zip_dom {V} (keys : list string) (vs : list V) k :
  is_Some (dict_zip keys vs !! k) → k ∈ keys.
Proof.
  unfold dict_zip. intros Hk.
  assert (is_Some ((∅ : gmap string V) !! k) ∨ k ∈ keys) as [[? Hm]|]; [|done..].
  revert Hk. generalize (∅ : gmap string V). revert vs.
  induction keys as [|k' keys IH]; intros vs m Hk.
  { by left. }
  destruct vs as [|v' vs]; [by left|]. simpl in Hk.
  apply IH in Hk as [Hk|Hk]; [|right; by right].
  destruct (decide (k' = k)) as [->|Hne]; [right; by left|].
  rewrite lookup_insert_ne in Hk by done. by left.
Qed.

Section build.
Context `{SortValues}.

(** The function raises its own error exactly when the flag is down. *)
Lemma build_shape_error df msg :
  classify_and_build df = Raise (RuntimeError msg)
  ↔ valid (classify (len df) (sort_values (unique_counts df))) = false
    ∧ msg = shape_message.
Proof.
  unfold classify_and_build.
  destruct (valid _);
    [|split; [by intros [= <-]|by intros [_ ->]]].
  split; [|by intros [? _]]. intros Hrun. exfalso.
  destruct (to_xarray _ _) as [ds|e] eqn:Hx.
  - simpl in Hrun. destruct (loc0 _ _) as [row0|e] eqn:Hloc; [done|].
    apply loc0_raises in Hloc as ->. done.
  - apply to_xarray_raises in Hx as [? ->]. done.
Qed.

(** What a successful call returns, for a frame with distinct labels:
    the dimensions are the coordinates, the data variables are the
    variables, the attributes are the constants with the first row's
    values. *)
Lemma build_ok df ds :
  NoDup (columns df) → classify_and_build df = Ok ds →
  let vc := sort_values (unique_counts df) in
  let st := classify (len df) vc in
  valid st = true
  ∧ to_xarray (select df (coord st)) (select df (var st))
    = Ok {| dims := dims ds; coords := coords ds; data_vars := data_vars ds;
            attrs := ∅ |}
  ∧ dims ds = coord st
  ∧ (data_vars ds).*1 = var st
  ∧ ∃ row0, loc0 df (meta_cols vc) = Ok row0
      ∧ attrs ds = dict_zip (meta_cols vc) (AttrScalar <$> row0).
Proof.
  intros Hnd. unfold classify_and_build. simpl.
  destruct (classify_labels_subseteq df) as [Hc Hv]. simpl in Hc, Hv.
  destruct (valid _); [|done].
  destruct (to_xarray _ _) as [ds'|e] eqn:Hx; [|done]. simpl.
  destruct (loc0 _ _) as [row0|e] eqn:Hloc; [|done]. simpl.
  intros [= <-]. simpl.
  apply to_xarray_ok in Hx as Hx'. destruct Hx' as (Hd & Hdv & Ha).
  rewrite select_labels in Hd, Hdv by done.
  split_and!; try done.
  - destruct ds'. simpl in *. by subst.
  - exists row0. split; [done|]. rewrite Ha. apply (right_id_L ∅ (∪)).
Qed.
End build.

(** * The claims *)

(** ** The shape error *)

(** C2: [read_sweep_csv] raises its shape error if and only if stepping
    through the cardinalities of the varying columns in ascending order,
    multiplying while the running product is below the row count, never
    makes the product equal to the row count; and when the call succeeds
    the coordinates are a prefix of those columns whose cardinalities
    multiply to the row count exactly. *)
Theorem shape_error_iff_product_never_reaches `{SortValues} path skipcols :
  let df := frame_read path skipcols in
  let vc := sort_values (unique_counts df) in
  (read_sweep_csv path skipcols = Raise (RuntimeError shape_message)
   ↔ ¬ reaches (len df) (varying vc).*2)
  ∧ (∀ ds, read_sweep_csv path skipcols = Ok ds →
       ∃ k, coord (classify (len df) vc) = (take k (varying vc)).*1
          ∧ product (take k (varying vc)).*2 = len df).
Proof.
  simpl. unfold read_sweep_csv. generalize (frame_read path skipcols) as df.
  intros df. split.
  - rewrite build_shape_error, <-valid_reaches.
    destruct (valid _).
    + split; [by intros [? _]|]. intros Hn. by destruct Hn.
    + split; [by intros _ ?|done].
  - intros ds Hok.
    assert (valid (classify (len df) (sort_values (unique_counts df))) = true)
      as Hvalid.
    { unfold classify_and_build in Hok. by destruct (valid _). }
    destruct (classify_spec (len df) (sort_values (unique_counts df)))
      as (k & Hk & Hcoord & Hvar & Hcp & Hbelow & Hstop & Hv).
    destruct (proj1 Hv Hvalid) as [_ Heq]. exists k. by rewrite <-Hcp.
Qed.

(** A frame whose columns all have one distinct value sets nothing in the
    loop. *)
Lemma classify_all_constant n (vc : Series) :
  Forall (λ cv : string * nat, cv.2 = 1) vc → classify n vc = loop_init.
Proof.
  induction vc as [|[col value] vc IH] using rev_ind; [done|].
  rewrite Forall_app, Forall_singleton. intros [Hvc Hone]. simpl in Hone.
  rewrite classify_snoc, IH by done. simpl. by rewrite decide_True.
Qed.

Lemma frame_read_subseteq path skipcols : frame_read path skipcols ⊆ path.
Proof.
  unfold frame_read, read_csv_usecols. destruct skipcols; [|done].
  intros c Hc. by apply list_elem_of_filter in Hc as [_ ?].
Qed.

Lemma single_row_constant (df : DataFrame) :
  Forall (λ c : column, length c.2 = 1) df →
  Forall (λ c : column, length (pd_unique c.2) = 1) df.
Proof.
  intros Hall. eapply Forall_impl; [done|].
  intros [name [|v [|v' vals]]] Hlen; simpl in *; done.
Qed.

(** C10: on a table in which every column has cardinality 1, and so on
    every table of one row, [read_sweep_csv] raises the shape error: the
    flag is only set where a coordinate is taken, and no constant column
    gets there. *)
Theorem all_constant_raises `{SortValues} path skipcols :
  Forall (λ c : column, length (pd_unique c.2) = 1) path →
  read_sweep_csv path skipcols = Raise (RuntimeError shape_message).
Proof.
  intros Hall. unfold read_sweep_csv. apply build_shape_error. split; [|done].
  rewrite classify_all_constant; [done|].
  apply Forall_forall. intros cv Hcv.
  rewrite sort_values_perm in Hcv.
  apply list_elem_of_fmap in Hcv as (c & -> & Hc). simpl.
  apply frame_read_subseteq in Hc.
  by apply (proj1 (Forall_forall _ _) Hall).
Qed.

Lemma all_constant_raises_witness :
  len single_row = 1
  ∧ read_sweep_csv single_row None = Raise (RuntimeError shape_message).
Proof.
  split; [reflexivity|].
  apply (all_constant_raises single_row None).
  apply single_row_constant. repeat constructor.
Defined.

(** ** Roles of the columns *)

Lemma frame_read_NoDup path skipcols :
  NoDup (columns path) → NoDup (columns (frame_read path skipcols)).
Proof.
  unfold frame_read, read_csv_usecols, columns. destruct skipcols; [|done].
  intros Hnd. eapply sublist_NoDup; [done|].
  apply fmap_sublist, sublist_filter.
Qed.

Lemma dict_zip_dom_eq {V} (keys : list string) (vs : list V) :
  length keys = length vs → dom (dict_zip keys vs) = list_to_set keys.
Proof.
  unfold dict_zip. intros Hlen.
  assert (∀ m : gmap string V,
    dom (foldl (λ m kv, <[kv.1 := kv.2]> m) m (zip keys vs))
    = dom m ∪ list_to_set keys) as Hdom.
  { revert vs Hlen. induction keys as [|k keys IH]; intros [|v vs] Hlen m;
      simplify_eq/=; [set_solver|].
    rewrite IH, dom_insert_L by done. set_solver. }
  rewrite Hdom, dom_empty_L. set_solver.
Qed.

Lemma same_label_same_column (df : DataFrame) (c1 c2 : column) :
  NoDup (columns df) → c1 ∈ df → c2 ∈ df → c1.1 = c2.1 → c1 = c2.
Proof.
  destruct c1 as [n v1], c2 as [n' v2]. simpl. intros Hnd H1 H2 <-.
  pose proof (filter_label_unique df n v1 Hnd H1) as Hf.
  assert ((n, v2) ∈ filter (λ c : column, c.1 = n) df) as Hin
    by by apply list_elem_of_filter.
  rewrite Hf in Hin. by apply list_elem_of_singleton in Hin.
Qed.

Section roles.
Context `{SortValues}.

Lemma roles_NoDup df :
  let vc := sort_values (unique_counts df) in
  let st := classify (len df) vc in
  NoDup (columns df) → NoDup (coord st ++ var st ++ meta_cols vc).
Proof.
  simpl. intros Hnd.
  by rewrite classify_partition, sorted_names.
Qed.

Lemma constant_in_meta_cols df name vals :
  (name, vals) ∈ df → length (pd_unique vals) = 1 →
  name ∈ meta_cols (sort_values (unique_counts df)).
Proof.
  intros Hin Hone. unfold meta_cols.
  apply list_elem_of_fmap. exists (name, 1). split; [done|].
  apply list_elem_of_filter. split; [done|].
  rewrite sort_values_perm. apply list_elem_of_fmap.
  exists (name, vals). simpl. by rewrite Hone.
Qed.

Lemma meta_cols_subseteq df :
  meta_cols (sort_values (unique_counts df)) ⊆ columns df.
Proof.
  intros n Hn. rewrite <-sorted_names.
  apply list_elem_of_fmap in Hn as (cv & -> & Hcv).
  apply list_elem_of_filter in Hcv as [_ Hcv].
  apply list_elem_of_fmap. by exists cv.
Qed.

(** The attribute a constant column gets is its cell of the first row. *)
Lemma constant_attr df ds name vals :
  NoDup (columns df) → classify_and_build df = Ok ds →
  (name, vals) ∈ df → length (pd_unique vals) = 1 →
  ∃ v, vals !! 0 = Some v ∧ attrs ds !! name = Some (AttrScalar v).
Proof.
  intros Hnd Hok Hin Hone.
  destruct (build_ok df ds Hnd Hok) as (_ & _ & _ & _ & row0 & Hloc & ->).
  pose proof (constant_in_meta_cols df name vals Hin Hone) as Hmeta.
  pose proof (roles_NoDup df Hnd) as Hroles. simpl in Hroles.
  rewrite app_assoc in Hroles. apply NoDup_app in Hroles as (_ & _ & Hndm).
  set (meta := meta_cols (sort_values (unique_counts df))) in *.
  apply list_elem_of_lookup_1 in Hmeta as [i Hi].
  pose proof (select_spec df meta Hnd (meta_cols_subseteq df)) as Hsel.
  destruct (Forall2_lookup_l _ _ _ _ _ Hsel Hi) as (c & Hc & Hname & Hcin).
  assert (c = (name, vals)) as ->
    by by apply (same_label_same_column df).
  unfold loc0 in Hloc. destruct (mapM _ _) as [vs|] eqn:Hm; [|done].
  injection Hloc as ->. apply mapM_Some in Hm.
  destruct (Forall2_lookup_l _ _ _ _ _ Hm Hc) as (v & Hv & Hcell).
  exists v. split; [done|].
  apply (dict_zip_lookup meta _ i); [done..|].
  by rewrite list_lookup_fmap, Hv.
Qed.
End roles.

(** C9: on every table with distinct labels, and so on every table on
    which classification succeeds, the coordinates, the variables and the
    constants hold every retained column exactly once: the three lists
    together are a rearrangement of the labels of the frame that was read
    and no label is in two of them.  When the call returns, they are the
    dimensions, the data variables and the attribute keys of the
    result. *)
Theorem roles_partition_retained_columns `{SortValues} path skipcols :
  let df := frame_read path skipcols in
  let vc := sort_values (unique_counts df) in
  let st := classify (len df) vc in
  NoDup (columns path) →
  coord st ++ var st ++ meta_cols vc ≡ₚ columns df
  ∧ (∀ x, x ∈ coord st → x ∉ var st)
  ∧ (∀ x, x ∈ coord st → x ∉ meta_cols vc)
  ∧ (∀ x, x ∈ var st → x ∉ meta_cols vc)
  ∧ ∀ ds, read_sweep_csv path skipcols = Ok ds →
      dims ds = coord st
      ∧ (data_vars ds).*1 = var st
      ∧ dom (attrs ds) = list_to_set (meta_cols vc).
Proof.
  simpl. intros Hnd. unfold read_sweep_csv.
  apply (frame_read_NoDup _ skipcols) in Hnd.
  set (df := frame_read path skipcols) in *.
  pose proof (roles_NoDup df Hnd) as Hroles. simpl in Hroles.
  apply NoDup_app in Hroles as (_ & Hcv & Hroles).
  apply NoDup_app in Hroles as (_ & Hvm & _).
  split_and!; try done.
  - by rewrite classify_partition, sorted_names.
  - intros x Hx Hv. apply (Hcv x Hx). set_solver.
  - intros x Hx Hm. apply (Hcv x Hx). set_solver.
  - intros ds Hok.
    destruct (build_ok df ds Hnd Hok) as (_ & _ & Hd & Hdv & row0 & Hloc & Ha).
    split_and!; try done.
    rewrite Ha. apply dict_zip_dom_eq. rewrite length_fmap.
    unfold loc0 in Hloc. destruct (mapM _ _) as [vs|] eqn:Hm; [|done].
    injection Hloc as ->. apply mapM_Some, Forall2_length in Hm.
    rewrite <-Hm, <-(length_fmap fst (select _ _)).
    by rewrite select_labels by (done || apply meta_cols_subseteq).
Qed.

Lemma roles_partition_retained_columns_witness :
  (∃ ds, read_sweep_csv small_sweep (Some ["extra"]) = Ok ds
       ∧ dims ds = ["a"; "b"]
       ∧ (data_vars ds).*1 = ["result"]
       ∧ dom (attrs ds) = list_to_set ["seed"])
  ∧ (let st := classify (len repeated_pairs)
                 (sort_values (unique_counts repeated_pairs)) in
     valid st = true
     ∧ coord st ++ var st ++ meta_cols (sort_values (unique_counts repeated_pairs))
       ≡ₚ columns repeated_pairs).
Proof.
  split.
  - destruct (read_sweep_csv small_sweep (Some ["extra"])) as [ds|e] eqn:Hok;
      [|by vm_compute in Hok].
    exists ds.
    assert (NoDup (columns small_sweep)) as Hnd
      by (apply (bool_decide_unpack _); by vm_compute).
    destruct (roles_partition_retained_columns small_sweep (Some ["extra"]) Hnd)
      as (_ & _ & _ & _ & Hds).
    destruct (Hds ds Hok) as (Hd & Hdv & Ha). by split_and!.
  - assert (NoDup (columns repeated_pairs)) as Hnd
      by (apply (bool_decide_unpack _); by vm_compute).
    destruct (roles_partition_retained_columns repeated_pairs None Hnd)
      as (Hperm & _).
    split; [by vm_compute|exact Hperm].
Defined.

(** C5: a column of cardinality 1 is never taken as a coordinate or as
    a variable, wherever it stands among the columns; in the result it is
    neither a dimension nor a data variable, and the attributes map its
    label to its cell of row 0. *)
Theorem constant_column_is_metadata `{SortValues} path skipcols name vals :
  let df := frame_read path skipcols in
  let st := classify (len df) (sort_values (unique_counts df)) in
  NoDup (columns path) →
  (name, vals) ∈ df →
  length (pd_unique vals) = 1 →
  (name ∉ coord st) ∧ (name ∉ var st)
  ∧ ∀ ds, read_sweep_csv path skipcols = Ok ds →
      (name ∉ dims ds) ∧ (name ∉ (data_vars ds).*1)
      ∧ ∃ v, vals !! 0 = Some v ∧ attrs ds !! name = Some (AttrScalar v).
Proof.
  simpl. intros Hnd Hin Hone. unfold read_sweep_csv.
  apply (frame_read_NoDup _ skipcols) in Hnd.
  set (df := frame_read path skipcols) in *.
  pose proof (constant_in_meta_cols df name vals Hin Hone) as Hmeta.
  pose proof (roles_NoDup df Hnd) as Hroles. simpl in Hroles.
  apply NoDup_app in Hroles as (_ & Hcv & Hroles).
  apply NoDup_app in Hroles as (_ & Hvm & _).
  assert (name ∉ coord (classify (len df) (sort_values (unique_counts df))))
    as Hnc by (intros Hc; apply (Hcv name Hc); set_solver).
  assert (name ∉ var (classify (len df) (sort_values (unique_counts df))))
    as Hnv by (intros Hv; by apply (Hvm name Hv)).
  split_and!; try done. intros ds Hok.
  destruct (build_ok df ds Hnd Hok) as (_ & _ & Hd & Hdv & _).
  rewrite Hd, Hdv. split_and!; try done.
  by apply (constant_attr df).
Qed.

Lemma constant_column_is_metadata_witness :
  ∃ ds, read_sweep_csv small_sweep (Some ["extra"]) = Ok ds
      ∧ ("seed" ∉ dims ds) ∧ ("seed" ∉ (data_vars ds).*1)
      ∧ attrs ds !! "seed" = Some (AttrScalar (VInt 7)).
Proof.
  destruct (read_sweep_csv small_sweep (Some ["extra"])) as [ds|e] eqn:Hok;
    [|by vm_compute in Hok].
  exists ds.
  assert (NoDup (columns small_sweep)) as Hnd by (apply (bool_decide_unpack _); by vm_compute).
  assert (("seed", VInt <$> [7; 7; 7; 7; 7; 7]%Z)
            ∈ frame_read small_sweep (Some ["extra"])) as Hin
    by (apply (bool_decide_unpack _); by vm_compute).
  destruct (constant_column_is_metadata small_sweep (Some ["extra"])
              "seed" _ Hnd Hin eq_refl) as (_ & _ & Hds).
  destruct (Hds ds Hok) as (Hd & Hdv & v & Hv & Ha).
  injection Hv as <-. done.
Defined.

(** ** Subsets of the columns *)

Lemma product_Permutation l1 l2 : l1 ≡ₚ l2 → product l1 = product l2.
Proof.
  induction 1 as [|x l1 l2 _ IH|x y l|l1 l2 l3 _ IH1 _ IH2]; simpl; lia.
Qed.

(** When some columns multiply to the row count, the row count divides
    the product of all the cardinalities. *)
Lemma subset_matches_divides df :
  some_subset_matches df → ∃ q, product (unique_counts df).*2 = len df * q.
Proof.
  intros (sub & Hsub & Hprod).
  apply submseteq_Permutation in Hsub as [rest Hrest].
  exists (product rest.*2).
  by rewrite (product_Permutation _ _ (fmap_Permutation snd _ _ Hrest)),
    fmap_app, product_app, Hprod.
Qed.

(** C3, as the specification states it, fails on [greedy_miss]: column
    [Y] alone has as many values as there are rows, and the call raises
    all the same, because the loop has taken [X] first. *)
Lemma subset_product_does_not_decide : ¬ fails_exactly_without_subset greedy_miss.
Proof.
  unfold fails_exactly_without_subset. intros [Hfails _].
  apply Hfails; [by vm_compute|].
  exists [("Y", 3)]. split; [|done].
  apply sublist_submseteq. vm_compute. apply sublist_cons, sublist_skip, sublist_nil.
Qed.

(** C3, amended: when no subset of the columns has cardinalities that
    multiply to the row count, [read_sweep_csv] raises the shape error.
    (The converse is what fails: the loop tries the ascending prefixes
    only.) *)
Theorem no_subset_raises `{SortValues} path skipcols :
  ¬ some_subset_matches (frame_read path skipcols) →
  read_sweep_csv path skipcols = Raise (RuntimeError shape_message).
Proof.
  intros Hnone. unfold read_sweep_csv. generalize dependent (frame_read path skipcols).
  intros df Hnone. apply build_shape_error. split; [|done].
  destruct (valid _) eqn:Hvalid; [|done]. destruct Hnone.
  destruct (classify_spec (len df) (sort_values (unique_counts df)))
    as (k & Hk & Hcoord & Hvar & Hcp & Hbelow & Hstop & Hv).
  destruct (proj1 Hv Hvalid) as [_ Heq].
  exists (take k (varying (sort_values (unique_counts df)))). split.
  - trans (sort_values (unique_counts df));
      [|apply Permutation_submseteq, sort_values_perm].
    apply sublist_submseteq. etrans; [apply sublist_take|apply sublist_filter].
  - by rewrite <-Hcp.
Qed.

Lemma no_subset_raises_witness :
  ¬ some_subset_matches ten_rows
  ∧ read_sweep_csv ten_rows None = Raise (RuntimeError shape_message).
Proof.
  assert (¬ some_subset_matches (frame_read ten_rows None)) as Hnone.
  { intros [q Hq]%subset_matches_divides. change (6 = 10 * q) in Hq. lia. }
  split; [done|]. by apply (no_subset_raises ten_rows None).
Defined.

(** ** The message *)

(** C4, as the specification states it, fails on [ten_rows]: the call
    raises, and its message does not hold the row count. *)
Lemma error_message_has_no_context : ¬ error_carries_context ten_rows.
Proof.
  unfold error_carries_context. intros Hctx.
  destruct (Hctx shape_message) as [Hrows _]; [by vm_compute|].
  by vm_compute in Hrows.
Qed.

(** C4, amended: whenever the classification fails, the error raised is
    a [RuntimeError] with one fixed message, the same for every table.
    The message names the cross product and the [skipcols] argument; it
    holds no digit, so no row count and no cardinality. *)
Theorem shape_error_has_fixed_message `{SortValues} path skipcols :
  let df := frame_read path skipcols in
  valid (classify (len df) (sort_values (unique_counts df))) = false →
  read_sweep_csv path skipcols = Raise (RuntimeError shape_message)
  ∧ contains "cross product" shape_message
  ∧ contains "skipcols" shape_message
  ∧ Forall (λ a, digit a = None) (String.list_ascii_of_string shape_message).
Proof.
  simpl. intros Hinvalid. split_and!.
  - unfold read_sweep_csv. by apply build_shape_error.
  - by vm_compute.
  - by vm_compute.
  - apply (bool_decide_unpack _). by vm_compute.
Qed.

Lemma shape_error_has_fixed_message_witness :
  read_sweep_csv ten_rows None = Raise (RuntimeError shape_message)
  ∧ read_sweep_csv greedy_miss None = Raise (RuntimeError shape_message).
Proof.
  split.
  - by apply (shape_error_has_fixed_message ten_rows None).
  - by apply (shape_error_has_fixed_message greedy_miss None).
Defined.

(** ** Skipped columns *)

Lemma filter_ext_elem_of {A} (P Q : A → Prop)
    `{∀ x, Decision (P x), ∀ x, Decision (Q x)} (l : list A) :
  (∀ x, x ∈ l → P x ↔ Q x) → filter P l = filter Q l.
Proof.
  induction l as [|x l IH]; intros HPQ; [done|].
  rewrite !filter_cons, IH by (intros y Hy; apply HPQ; by right).
  destruct (HPQ x) as [HP HQ]; [by left|].
  destruct (decide (P x)), (decide (Q x)); naive_solver.
Qed.

(** Reading with [skipcols] reads the columns whose label is not skipped. *)
Lemma frame_read_skip path skip :
  frame_read path (Some skip) = filter (λ c : column, c.1 ∉ skip) path.
Proof.
  unfold frame_read, read_csv_usecols, columns.
  apply filter_ext_elem_of. intros c Hc.
  rewrite elem_of_difference, !elem_of_list_to_set.
  split; [by intros [_ ?]|]. intros Hskip. split; [|done].
  apply list_elem_of_fmap. by exists c.
Qed.

Lemma read_sweep_csv_file_columns `{SortValues} path skipcols :
  path ≠ [] → read_sweep_csv_file path skipcols = read_sweep_csv path skipcols.
Proof. intros Hne. unfold read_sweep_csv_file. by destruct path. Qed.

(** C7, as the specification states it, fails on [only_extra]: with
    [skipcols] the file is read, no column is left and the call raises
    the shape error; the file without the column has nothing to parse and
    the reader raises [EmptyDataError]. *)
Lemma skip_differs_from_removal_of_the_only_column :
  ¬ skip_is_removal only_extra.
Proof.
  unfold skip_is_removal. intros Hclaim.
  assert ("extra" ∈ columns only_extra) as Hin by (simpl; left).
  specialize (Hclaim Hin). by vm_compute in Hclaim.
Qed.

(** C7, amended: on a file with a column besides ['extra'], reading
    with [skipcols={'extra'}] gives what reading the file without its
    column ['extra'] gives. *)
Theorem skipcols_is_removal_when_a_column_remains `{SortValues} path :
  remove_column "extra" path ≠ [] →
  read_sweep_csv_file path (Some ["extra"])
  = read_sweep_csv_file (remove_column "extra" path) None.
Proof.
  intros Hleft.
  assert (path ≠ []) as Hpath by (by intros ->).
  rewrite !read_sweep_csv_file_columns by done.
  unfold read_sweep_csv. f_equal. rewrite frame_read_skip.
  unfold frame_read, read_csv_usecols, remove_column.
  apply filter_ext_elem_of. intros c _.
  by rewrite list_elem_of_singleton.
Qed.

Lemma skipcols_is_removal_when_a_column_remains_witness :
  read_sweep_csv_file small_sweep (Some ["extra"])
  = read_sweep_csv_file (remove_column "extra" small_sweep) None.
Proof.
  apply (skipcols_is_removal_when_a_column_remains small_sweep).
  by vm_compute.
Defined.

(** ** Levels and codes *)

Lemma pd_unique_elem_of l x : x ∈ pd_unique l ↔ x ∈ l.
Proof.
  induction l as [|y l IH]; simpl; [done|].
  rewrite !elem_of_cons, list_elem_of_filter, IH.
  destruct (decide (x = y)); naive_solver.
Qed.

Lemma level_elem_of vals x : x ∈ level vals ↔ x ∈ vals.
Proof. unfold level. by rewrite merge_sort_Permutation, pd_unique_elem_of. Qed.

Lemma level_length vals : length (level vals) = length (pd_unique vals).
Proof. unfold level. by rewrite merge_sort_Permutation. Qed.

(** A label that is on the axis has a position, and the axis has the
    label at that position. *)
Lemma code_elem_of labels v :
  v ∈ labels → ∃ j, code labels v = Some j ∧ labels !! j = Some v.
Proof.
  intros Hv. unfold code.
  destruct (list_find_elem_of (λ y, y = v) labels v Hv eq_refl) as [[j y] Hfind].
  rewrite Hfind. exists j. split; [done|].
  apply list_find_Some in Hfind as (Hj & -> & _). done.
Qed.

(** The code of a value of a column says which value it is. *)
Lemma codes_lookup vals i v :
  vals !! i = Some v →
  ∃ j, codes vals !! i = Some j
     ∧ code (level vals) v = Some j
     ∧ level vals !! j = Some v.
Proof.
  intros Hi. unfold codes. rewrite list_lookup_fmap, Hi. simpl.
  destruct (code_elem_of (level vals) v) as (j & Hcode & Hj).
  { apply level_elem_of. by eapply list_elem_of_lookup_2. }
  exists j. by rewrite Hcode.
Qed.

(** The indexer of two index columns: row [i] goes to the pair of its
    codes. *)
Lemma indexer2_lookup colA colB i a b :
  length colA = length colB →
  colA !! i = Some a → colB !! i = Some b →
  ∃ ja jb,
    transpose (length colA) [codes colA; codes colB] !! i = Some [ja; jb]
    ∧ code (level colA) a = Some ja ∧ level colA !! ja = Some a
    ∧ code (level colB) b = Some jb ∧ level colB !! jb = Some b.
Proof.
  intros Hlen Ha Hb.
  destruct (codes_lookup colA i a Ha) as (ja & Hia & Hca & Hla).
  destruct (codes_lookup colB i b Hb) as (jb & Hib & Hcb & Hlb).
  exists ja, jb. split_and!; try done. simpl.
  rewrite !lookup_zip_with, Hia, Hib. simpl.
  rewrite lookup_replicate_2; [done|]. by eapply lookup_lt_Some.
Qed.

Lemma indexer2_NoDup colA colB :
  length colA = length colB → NoDup (zip colA colB) →
  NoDup (transpose (length colA) [codes colA; codes colB]).
Proof.
  intros Hlen Hnd. apply NoDup_alt. intros i j key Hi Hj.
  assert (∀ i key, transpose (length colA) [codes colA; codes colB] !! i = Some key →
            ∃ a b, colA !! i = Some a ∧ colB !! i = Some b) as Hrow.
  { clear. intros i key. simpl. rewrite !lookup_zip_with. unfold codes.
    rewrite !list_lookup_fmap.
    destruct (colA !! i); [|done]. destruct (colB !! i); [|done]. eauto. }
  destruct (Hrow i key Hi) as (a & b & Ha & Hb).
  destruct (Hrow j key Hj) as (a' & b' & Ha' & Hb').
  destruct (indexer2_lookup colA colB i a b Hlen Ha Hb)
    as (ja & jb & Hi' & _ & Hla & _ & Hlb).
  destruct (indexer2_lookup colA colB j a' b' Hlen Ha' Hb')
    as (ja' & jb' & Hj' & _ & Hla' & _ & Hlb').
  rewrite Hi in Hi'. rewrite Hj in Hj'. simplify_eq.
  apply (NoDup_lookup (zip colA colB) i j (a, b)); [done|..];
    rewrite lookup_zip_with; [by rewrite Ha, Hb|by rewrite Ha', Hb'].
Qed.

(** An ascending arrangement of entries with distinct counts is the one
    there is. *)
Lemma sorted_by_count_unique (s1 s2 : Series) :
  Sorted (λ x y : string * nat, x.2 ≤ y.2) s1 →
  StronglySorted (λ x y : string * nat, x.2 < y.2) s2 →
  s1 ≡ₚ s2 → s1 = s2.
Proof.
  intros Hs1 Hs2.
  assert (Transitive (λ x y : string * nat, x.2 ≤ y.2)) by (intros ???; lia).
  apply Sorted_StronglySorted in Hs1; [|done].
  revert s1 Hs1. induction Hs2 as [|y s2 Hs2 IH Hy]; intros s1 Hs1 Hperm.
  { by apply Permutation_nil_r in Hperm. }
  destruct Hs1 as [|x s1 Hs1 Hx]; [by apply Permutation_nil_l in Hperm|].
  assert (x = y) as ->.
  { destruct (decide (x = y)) as [|Hne]; [done|]. exfalso.
    assert (y ∈ s1) as Hy1.
    { assert (y ∈ x :: s1) as Hin by (rewrite Hperm; left).
      apply elem_of_cons in Hin as [?|?]; [by subst|done]. }
    assert (x ∈ s2) as Hx2.
    { assert (x ∈ y :: s2) as Hin by (rewrite <-Hperm; left).
      apply elem_of_cons in Hin as [?|?]; done. }
    rewrite Forall_forall in Hx, Hy.
    specialize (Hx y Hy1). specialize (Hy x Hx2). lia. }
  f_equal. apply IH; [done|]. by apply Permutation_cons_inv in Hperm.
Qed.

(** ** The round trip on a cross product *)

Section round_trip.
Context `{SortValues}.

(** On a cross product whose variable takes more values than either
    coordinate, the order of the columns by cardinality is settled. *)
Lemma cross_product_sorted df A B V colA colB colV ca cb :
  cross_product_table df A B V colA colB colV ca cb →
  1 < ca → ca < cb → cb < length (pd_unique colV) →
  len df = ca * cb
  ∧ NoDup (columns df)
  ∧ sort_values (unique_counts df)
    = [(A, ca); (B, cb); (V, length (pd_unique colV))].
Proof.
  intros (Hdf & Hnames & HlA & HlB & HlV & HcA & HcB & Hpairs) H1 Hab Hbv.
  split_and!.
  - destruct df as [|c df]; [by apply Permutation_nil_l in Hdf|].
    assert (c ∈ [(A, colA); (B, colB); (V, colV)]) as Hc
      by (rewrite <-Hdf; left).
    simpl. repeat (apply elem_of_cons in Hc as [->|Hc]; [done|]).
    by apply elem_of_nil in Hc.
  - unfold columns. by rewrite Hdf.
  - apply sorted_by_count_unique; [apply sort_values_sorted|..].
    + repeat constructor; simpl; lia.
    + rewrite sort_values_perm. unfold unique_counts. rewrite Hdf. simpl.
      by rewrite HcA, HcB.
Qed.

Lemma classify_grid A B V ca cb cv :
  1 < ca → ca < cb → cb < cv →
  classify (ca * cb) [(A, ca); (B, cb); (V, cv)]
  = {| cumproduct := ca * cb; coord := [A; B]; var := [V]; valid := true |}.
Proof.
  intros H1 Hab Hbv. unfold classify.
  change (foldl ?f ?st [?a; ?b; ?c]) with (f (f (f st a) b) c).
  assert (loop_body (ca * cb) loop_init (A, ca)
          = {| cumproduct := ca; coord := [A]; var := []; valid := false |}) as ->.
  { unfold loop_body. simpl. repeat case_decide; try (exfalso; nia).
    f_equal. lia. }
  assert (loop_body (ca * cb)
            {| cumproduct := ca; coord := [A]; var := []; valid := false |} (B, cb)
          = {| cumproduct := ca * cb; coord := [A; B]; var := [];
               valid := true |}) as ->.
  { unfold loop_body. simpl. repeat case_decide; try (exfalso; nia). done. }
  unfold loop_body. simpl. repeat case_decide; try (exfalso; lia). done.
Qed.

(** C1, amended: on a table whose rows are the full product of the
    values of [A] and of [B], [A] with fewer values than [B] (3 and 4,
    say, over 12 rows) and the variable [V] with more values than [B], the
    call returns dimensions [A] then [B], the one data variable [V] of
    shape [(ca, cb)], and at the labels of each row the value of [V] on
    that row. *)
Theorem cross_product_round_trip df A B V colA colB colV ca cb :
  cross_product_table df A B V colA colB colV ca cb →
  1 < ca → ca < cb → cb < length (pd_unique colV) →
  reshapes_as_grid df A B V colA colB colV ca cb.
Proof.
  intros Htable H1 Hab Hbv.
  destruct (cross_product_sorted _ _ _ _ _ _ _ _ _ Htable H1 Hab Hbv)
    as (Hlen & Hnd & Hvc).
  destruct Htable as (Hdf & Hnames & HlA & HlB & HlV & HcA & HcB & Hpairs).
  assert ((A, colA) ∈ df ∧ (B, colB) ∈ df ∧ (V, colV) ∈ df) as (HA & HB & HV)
    by (rewrite Hdf; set_solver).
  unfold reshapes_as_grid, read_sweep_csv, frame_read, read_csv_usecols.
  unfold classify_and_build.
  rewrite Hvc, Hlen, classify_grid by done. simpl.
  assert (meta_cols [(A, ca); (B, cb); (V, length (pd_unique colV))] = []) as ->.
  { unfold meta_cols. rewrite !filter_cons, filter_nil. simpl.
    by rewrite !decide_False by lia. }
  unfold select. simpl.
  rewrite (filter_label_unique df A colA), (filter_label_unique df B colB),
    (filter_label_unique df V colV) by done.
  simpl. unfold to_xarray. simpl len.
  assert (length colA = length colB) as HlAB by lia.
  pose proof (indexer2_NoDup colA colB HlAB Hpairs) as Hindexer.
  rewrite decide_True by done. simpl.
  eexists. split; [done|]. simpl.
  rewrite !level_length, HcA, HcB.
  split_and!; try done.
  intros i a b v Ha Hb Hv. unfold sel. simpl.
  destruct (indexer2_lookup colA colB i a b HlAB Ha Hb)
    as (ja & jb & Hi & Hca & _ & Hcb & _).
  rewrite Hca, Hcb. simpl. rewrite decide_True by done. simpl.
  by apply (assign_lookup _ _ i).
Qed.
End round_trip.

(** C1, as the specification states it, fails on [grid_two_valued]: its
    rows are the full product of 3 values of [A] and 4 of [B], and the
    call raises, because [V] has 2 values and is taken before [A]. *)
Lemma round_trip_fails_on_two_valued_variable :
  ¬ round_trip_as_stated grid_two_valued "A" "B" "V"
      (VStr <$> ["p"; "p"; "p"; "p"; "q"; "q"; "q"; "q"; "r"; "r"; "r"; "r"])
      (VInt <$> [3; 2; 1; 0; 3; 2; 1; 0; 3; 2; 1; 0]%Z)
      (VBool <$> [true; false; false; false; false; false;
                  false; false; false; false; false; true]).
Proof.
  unfold round_trip_as_stated. intros Hclaim.
  destruct Hclaim as (ds & Hok & _).
  - unfold cross_product_table. split_and!; try done.
    + apply (bool_decide_unpack _). by vm_compute.
    + apply (bool_decide_unpack _). by vm_compute.
  - by vm_compute in Hok.
Qed.

Lemma cross_product_round_trip_witness :
  reshapes_as_grid grid "A" "B" "V"
    (VStr <$> ["p"; "p"; "p"; "p"; "q"; "q"; "q"; "q"; "r"; "r"; "r"; "r"])
    (VInt <$> [3; 2; 1; 0; 3; 2; 1; 0; 3; 2; 1; 0]%Z)
    (VInt <$> [10; 11; 12; 13; 14; 15; 16; 17; 18; 19; 20; 21]%Z) 3 4.
Proof.
  apply cross_product_round_trip.
  - unfold cross_product_table, grid. split_and!; try done.
    + apply Permutation_rev.
    + apply (bool_decide_unpack _). by vm_compute.
    + apply (bool_decide_unpack _). by vm_compute.
  - lia.
  - lia.
  - vm_compute. lia.
Defined.

(** ** The NetLogo reader *)

(** Transposing [n]-long lists gives [n] lists, one entry per list. *)
Lemma transpose_shape {A} n (ls : list (list A)) :
  Forall (λ l, length l = n) ls →
  length (transpose n ls) = n
  ∧ Forall (λ r, length r = length ls) (transpose n ls).
Proof.
  induction 1 as [|l ls Hl Hls [IHlen IHrows]]; simpl.
  { rewrite length_replicate. split; [done|]. by apply Forall_replicate. }
  rewrite length_zip_with, IHlen, Hl. split; [lia|].
  apply Forall_forall. intros r Hr.
  apply list_elem_of_lookup_1 in Hr as [i Hi].
  apply lookup_zip_with_Some in Hi as (x & r' & -> & _ & Hr').
  apply list_elem_of_lookup_2 in Hr'. rewrite Forall_forall in IHrows.
  simpl. by rewrite (IHrows r' Hr').
Qed.

(** ** The key of the preamble *)

(** On [behaviorspace] the function returns the grid of the table, the
    constant [[step]] under its label and the preamble under
    ['Metadata']. *)
Lemma read_netlogo_table_on_an_export :
  ∃ ds, read_netlogo_table behaviorspace = Ok ds
      ∧ dims ds = ["wind"; "density"]
      ∧ (data_vars ds).*1 = ["burned"]
      ∧ attrs ds !! "[step]" = Some (AttrScalar (VInt 100))
      ∧ attrs ds !! "Metadata"
        = Some (AttrList
            [Label "BehaviorSpace results (NetLogo 6.2.0)";
             Value (VStr "fire.nlogo"); Value (VStr "sweep");
             Value (VStr "01/02/2021 10:00:00:000 -0500");
             Mapping (dict_zip ["min-pxcor"; "max-pxcor"; "min-pycor"; "max-pycor"]
                        (VInt <$> [-16; 16; -16; 16]%Z))]).
Proof.
  destruct (read_netlogo_table behaviorspace) as [ds|e] eqn:Hds;
    [|by vm_compute in Hds].
  exists ds. split; [done|].
  vm_compute in Hds. injection Hds as <-.
  split_and!; by vm_compute.
Qed.

(** C8: the code on [behaviorspace_clash], a file of the dialect with a
    constant column labelled [Metadata].  The classification records the
    column's value under its label; [ds.attrs['Metadata'] = model_info]
    then puts the preamble list under the same key, and the constant is
    gone from the result: the preamble parse does not leave it
    unchanged. *)
Lemma metadata_key_overwrites_constant :
  ¬ preamble_leaves_constants behaviorspace_clash.
Proof.
  unfold preamble_leaves_constants. intros Hclaim.
  destruct (read_csv behaviorspace_clash 6 None) as [table|e] eqn:Htable;
    [|by vm_compute in Htable].
  destruct (read_sweep_csv table (Some ["[run number]"])) as [ds0|e] eqn:Hds0;
    [|vm_compute in Htable; injection Htable as <-; by vm_compute in Hds0].
  destruct (read_netlogo_table behaviorspace_clash) as [ds|e] eqn:Hds;
    [|by vm_compute in Hds].
  specialize (Hclaim table ds0 ds eq_refl Hds0 eq_refl "Metadata"
                (AttrScalar (VInt 7))).
  vm_compute in Htable. injection Htable as <-.
  vm_compute in Hds0. injection Hds0 as <-.
  vm_compute in Hds. injection Hds as <-.
  by specialize (Hclaim eq_refl).
Qed.

(** ** Columns of equal cardinality *)

(** The insertion sort keeps the entries of one count in their order. *)
Lemma insertion_sort_keeps_ties c (s : Series) :
  filter (λ x : string * nat, x.2 = c) (insertion_sort s)
  = filter (λ x : string * nat, x.2 = c) s.
Proof.
  assert (∀ x s, filter (λ x : string * nat, x.2 = c) (insert_by_count x s)
                 = filter (λ x : string * nat, x.2 = c) (x :: s)) as Hins.
  { intros x s'. induction s' as [|y s' IH]; simpl; [done|].
    case_decide as Hxy; [done|].
    rewrite (filter_cons _ y), IH, !filter_cons.
    repeat case_decide; try done. lia. }
  induction s as [|x s IH]; simpl; [done|].
  by rewrite Hins, !filter_cons, IH.
Qed.

(** The other sort is ascending as well and turns them round. *)
Lemma reversing_sort_swaps_ties :
  @sort_values unstable_sort [("a", 2); ("b", 2)] = [("b", 2); ("a", 2)].
Proof. reflexivity. Qed.

(** Which of two columns of equal cardinality becomes a coordinate is
    decided by the order the sort leaves them in. *)
Lemma tie_order_decides_roles :
  let roles (S : SortValues) :=
    let st := classify (len tied) (@sort_values S (unique_counts tied)) in
    (coord st, var st, valid st) in
  roles stable_sort = (["A"; "B"], ["V"], true)
  ∧ roles unstable_sort = (["A"; "V"], ["B"], true).
Proof. split; reflexivity. Qed.

(** * Further properties of the two functions *)

(** ** Too few rows, and what a success implies *)

Lemma product_elem_of_divide (l : list nat) c : c ∈ l → (c | product l).
Proof.
  induction l as [|x l IH]; intros Hc; [by apply elem_of_nil in Hc|].
  simpl. apply elem_of_cons in Hc as [->|Hc].
  - apply Nat.divide_mul_l. done.
  - apply Nat.divide_mul_r. by apply IH.
Qed.

Lemma select_nonempty (df : DataFrame) n names :
  n ∈ columns df → select df (n :: names) ≠ [].
Proof.
  intros Hn Hnil. unfold select in Hnil. rewrite bind_cons in Hnil.
  apply app_eq_nil in Hnil as [Hnil _].
  apply list_elem_of_fmap in Hn as (c & -> & Hc).
  assert (c ∈ filter (λ c' : column, c'.1 = c.1) df) as Hin
    by by apply list_elem_of_filter.
  rewrite Hnil in Hin. by apply elem_of_nil in Hin.
Qed.

(** The first coordinate is only taken when the row count is above 1. *)
Lemma valid_two_rows n vc : valid (classify n vc) = true → 2 ≤ n.
Proof.
  intros Hvalid.
  destruct (classify_spec n vc) as (k & _ & _ & _ & _ & Hbelow & _ & Hv).
  destruct (proj1 Hv Hvalid) as [Hk _].
  specialize (Hbelow 0 Hk). simpl in Hbelow. lia.
Qed.

(** X1: when the frame that is read has at most one row (a header with
    nothing or one record below it, or no column left after skipping),
    [read_sweep_csv] raises the shape error, whatever the columns hold. *)
Theorem fewer_than_two_rows_raises `{SortValues} path skipcols :
  len (frame_read path skipcols) ≤ 1 →
  read_sweep_csv path skipcols = Raise (RuntimeError shape_message).
Proof.
  intros Hlen. unfold read_sweep_csv. apply build_shape_error. split; [|done].
  destruct (valid _) eqn:Hvalid; [|done].
  apply valid_two_rows in Hvalid. lia.
Qed.

Lemma fewer_than_two_rows_raises_witness :
  read_sweep_csv header_only None = Raise (RuntimeError shape_message)
  ∧ read_sweep_csv small_sweep (Some ["result"; "extra"; "b"; "seed"; "a"])
    = Raise (RuntimeError shape_message).
Proof.
  split.
  - apply (fewer_than_two_rows_raises header_only None). simpl. lia.
  - apply (fewer_than_two_rows_raises small_sweep). vm_compute. lia.
Defined.

(** X2: a call that succeeds has read at least two rows and returns at
    least one dimension; its coordinates are columns of the frame, each
    with at least two distinct values and a cardinality that divides the
    row count. *)
Theorem success_needs_rows_and_a_dimension `{SortValues} path skipcols ds :
  let df := frame_read path skipcols in
  let st := classify (len df) (sort_values (unique_counts df)) in
  read_sweep_csv path skipcols = Ok ds →
  2 ≤ len df
  ∧ dims ds ≠ []
  ∧ ∃ taken : Series,
      coord st = taken.*1
      ∧ taken ⊆+ unique_counts df
      ∧ Forall (λ cv : string * nat, 2 ≤ cv.2 ∧ (cv.2 | len df)) taken.
Proof.
  simpl. unfold read_sweep_csv. generalize (frame_read path skipcols) as df.
  intros df Hok.
  assert (valid (classify (len df) (sort_values (unique_counts df))) = true)
    as Hvalid.
  { unfold classify_and_build in Hok. by destruct (valid _). }
  pose proof (valid_two_rows _ _ Hvalid) as Hrows.
  destruct (classify_spec (len df) (sort_values (unique_counts df)))
    as (k & Hk & Hcoord & Hvar & Hcp & Hbelow & Hstop & Hv).
  destruct (proj1 Hv Hvalid) as [Hpos Heq]. rewrite Hcp in Heq.
  destruct (classify_labels_subseteq df) as [Hsub _]. simpl in Hsub.
  split_and!; [done|..].
  - unfold classify_and_build in Hok. rewrite Hvalid in Hok.
    destruct (to_xarray _ _) as [ds'|e] eqn:Hx; [|done]. simpl in Hok.
    destruct (loc0 _ _) as [row0|e]; [|done]. injection Hok as <-. simpl.
    apply to_xarray_ok in Hx as (-> & _ & _).
    destruct (coord _) as [|n names] eqn:Hc.
    { destruct k; [lia|].
      destruct (varying _); [simpl in Hk; lia|done]. }
    intros Hnil. apply fmap_nil_inv in Hnil.
    apply (select_nonempty df n names); [|done]. apply Hsub. by left.
  - exists (take k (varying (sort_values (unique_counts df)))).
    split_and!; [done|..].
    + trans (sort_values (unique_counts df));
        [|apply Permutation_submseteq, sort_values_perm].
      apply sublist_submseteq. etrans; [apply sublist_take|apply sublist_filter].
    + apply Forall_forall. intros [col c] Hin. simpl.
      assert (c | len df) as Hdiv.
      { rewrite <-Heq. apply product_elem_of_divide.
        apply list_elem_of_fmap. by exists (col, c). }
      split; [|done].
      assert ((col, c) ∈ varying (sort_values (unique_counts df))) as Hvar'
        by (eapply elem_of_sublist; [done|apply sublist_take]).
      apply list_elem_of_filter in Hvar' as [Hne _]. simpl in Hne.
      destruct Hdiv as [q Hq]. destruct c as [|[|c]]; [lia|done|lia].
Qed.

Lemma success_needs_rows_and_a_dimension_witness :
  ∃ ds, read_sweep_csv small_sweep (Some ["extra"]) = Ok ds
      ∧ 2 ≤ len (frame_read small_sweep (Some ["extra"]))
      ∧ dims ds ≠ [].
Proof.
  destruct (read_sweep_csv small_sweep (Some ["extra"])) as [ds|e] eqn:Hok;
    [|by vm_compute in Hok].
  exists ds.
  destruct (success_needs_rows_and_a_dimension small_sweep (Some ["extra"]) ds Hok)
    as (Hrows & Hdims & _).
  done.
Defined.

(** ** Coordinates vary least *)

Lemma StronglySorted_filter {A} (R : relation A) (P : A → Prop)
    `{∀ x, Decision (P x)} (l : list A) :
  StronglySorted R l → StronglySorted R (filter P l).
Proof.
  induction 1 as [|x l Hl IH Hx]; [constructor|].
  rewrite filter_cons. case_decide; [|done].
  constructor; [done|].
  apply Forall_forall. intros y [_ Hy]%list_elem_of_filter.
  by apply (proj1 (Forall_forall _ _) Hx).
Qed.

Lemma same_label_same_count (s : Series) n a b :
  NoDup s.*1 → (n, a) ∈ s → (n, b) ∈ s → a = b.
Proof.
  induction s as [|[n' c] s IH]; intros Hnd Ha Hb; [by apply elem_of_nil in Ha|].
  rewrite fmap_cons in Hnd. apply NoDup_cons in Hnd as [Hn Hnd]. simpl in Hn.
  assert (∀ x, (n', x) ∈ s → False) as Hfresh.
  { intros x Hx. apply Hn. apply list_elem_of_fmap. by exists (n', x). }
  apply elem_of_cons in Ha as [Ha|Ha], Hb as [Hb|Hb]; simplify_eq;
    [done|by destruct (Hfresh b)|by destruct (Hfresh a)|by apply IH].
Qed.

(** X3: no coordinate has more distinct values than a variable: for a
    table with distinct labels, whenever the loop takes column [d] as a
    coordinate and column [v] as a variable, the cardinality of [d] is at
    most that of [v]; so it is for the dimensions and the data variables
    of a result. *)
Theorem coordinates_vary_least `{SortValues} path skipcols d v cd cv :
  let df := frame_read path skipcols in
  let st := classify (len df) (sort_values (unique_counts df)) in
  NoDup (columns path) →
  (d, cd) ∈ unique_counts df → (v, cv) ∈ unique_counts df →
  (d ∈ coord st → v ∈ var st → cd ≤ cv)
  ∧ ∀ ds, read_sweep_csv path skipcols = Ok ds →
      d ∈ dims ds → v ∈ (data_vars ds).*1 → cd ≤ cv.
Proof.
  simpl. intros Hnd Hd Hv. unfold read_sweep_csv.
  apply (frame_read_NoDup _ skipcols) in Hnd.
  set (df := frame_read path skipcols) in *.
  set (vc := sort_values (unique_counts df)).
  assert (d ∈ coord (classify (len df) vc) → v ∈ var (classify (len df) vc) →
          cd ≤ cv) as Hle.
  { destruct (classify_spec (len df) vc) as (k & _ & -> & -> & _).
    intros ([d' cd'] & -> & Hd')%list_elem_of_fmap
           ([v' cv'] & -> & Hv')%list_elem_of_fmap. simpl in *.
    assert (Transitive (λ x y : string * nat, x.2 ≤ y.2)) by (intros ???; lia).
    assert (StronglySorted (λ x y : string * nat, x.2 ≤ y.2) (varying vc))
      as Hsorted.
    { apply StronglySorted_filter, Sorted_StronglySorted; [done|].
      apply sort_values_sorted. }
    rewrite <-(take_drop k (varying vc)) in Hsorted.
    pose proof (StronglySorted_app_1_elem_of _ _ _ _ _ Hsorted Hd' Hv') as Hord.
    simpl in Hord.
    assert (∀ x, x ∈ varying vc → x ∈ unique_counts df) as Hin.
    { intros x [_ Hx]%list_elem_of_filter. unfold vc in Hx.
      by rewrite sort_values_perm in Hx. }
    assert (NoDup (unique_counts df).*1) as Hnames
      by by rewrite unique_counts_names.
    assert ((d', cd') ∈ unique_counts df) as Hd''
      by (apply Hin; rewrite <-(take_drop k (varying vc)); set_solver).
    assert ((v', cv') ∈ unique_counts df) as Hv''
      by (apply Hin; rewrite <-(take_drop k (varying vc)); set_solver).
    rewrite (same_label_same_count _ _ _ _ Hnames Hd Hd'').
    rewrite (same_label_same_count _ _ _ _ Hnames Hv Hv''). done. }
  split; [done|]. intros ds Hok.
  destruct (build_ok df ds Hnd Hok) as (_ & _ & -> & -> & _). done.
Qed.

Lemma coordinates_vary_least_witness :
  ∃ ds, read_sweep_csv small_sweep (Some ["extra"]) = Ok ds
      ∧ ("b" ∈ dims ds) ∧ ("result" ∈ (data_vars ds).*1) ∧ 3 ≤ 6.
Proof.
  destruct (read_sweep_csv small_sweep (Some ["extra"])) as [ds|e] eqn:Hok;
    [|by vm_compute in Hok].
  exists ds.
  assert (NoDup (columns small_sweep)) as Hnd
    by (apply (bool_decide_unpack _); by vm_compute).
  assert (("b", 3) ∈ unique_counts (frame_read small_sweep (Some ["extra"])))
    as Hb by (apply (bool_decide_unpack _); by vm_compute).
  assert (("result", 6) ∈ unique_counts (frame_read small_sweep (Some ["extra"])))
    as Hr by (apply (bool_decide_unpack _); by vm_compute).
  destruct (coordinates_vary_least small_sweep (Some ["extra"])
              "b" "result" 3 6 Hnd Hb Hr) as [_ Hle].
  assert ("b" ∈ dims ds) as Hdim
    by (vm_compute in Hok; injection Hok as <-; set_solver).
  assert ("result" ∈ (data_vars ds).*1) as Hvar
    by (vm_compute in Hok; injection Hok as <-; set_solver).
  split_and!; try done. by apply (Hle ds).
Defined.

(** ** The skip list *)

(** X4: only the labels of the table count in [skipcols]: two skip lists
    that hold the same labels of the table give the same result, whatever
    else they hold, in whatever order and however often. *)
Theorem skipcols_read_as_a_set `{SortValues} path skip1 skip2 :
  (∀ n, n ∈ columns path → n ∈ skip1 ↔ n ∈ skip2) →
  read_sweep_csv path (Some skip1) = read_sweep_csv path (Some skip2).
Proof.
  intros Hsame. unfold read_sweep_csv. f_equal. rewrite !frame_read_skip.
  apply filter_ext_elem_of. intros c Hc.
  assert (c.1 ∈ columns path) as Hn by (apply list_elem_of_fmap; by exists c).
  specialize (Hsame _ Hn). naive_solver.
Qed.

Lemma skipcols_read_as_a_set_witness :
  read_sweep_csv small_sweep (Some ["extra"; "run"; "extra"])
  = read_sweep_csv small_sweep (Some ["extra"]).
Proof.
  apply (skipcols_read_as_a_set small_sweep). intros n Hn.
  assert (n ≠ "run") by (intros ->; revert Hn; apply (bool_decide_unpack _); by vm_compute).
  set_solver.
Defined.

Lemma filter_all {A} (P : A → Prop) `{∀ x, Decision (P x)} (l : list A) :
  (∀ x, x ∈ l → P x) → filter P l = l.
Proof.
  induction l as [|x l IH]; intros HP; [done|].
  rewrite filter_cons_True by (apply HP; left).
  f_equal. apply IH. intros y Hy. apply HP. by right.
Qed.

(** X5: a skip list that names no column of the table changes nothing:
    the call returns what it returns without [skipcols]. *)
Theorem skipping_absent_columns_is_no_skip `{SortValues} path skip :
  (∀ n, n ∈ skip → n ∉ columns path) →
  read_sweep_csv path (Some skip) = read_sweep_csv path None.
Proof.
  intros Habsent. unfold read_sweep_csv. f_equal. rewrite frame_read_skip.
  unfold frame_read, read_csv_usecols.
  apply filter_all. intros c Hc Hskip.
  apply (Habsent _ Hskip). apply list_elem_of_fmap. by exists c.
Qed.

Lemma skipping_absent_columns_is_no_skip_witness :
  read_sweep_csv small_sweep (Some []) = read_sweep_csv small_sweep None
  ∧ read_sweep_csv small_sweep (Some ["[run number]"])
    = read_sweep_csv small_sweep None.
Proof.
  split.
  - apply (skipping_absent_columns_is_no_skip small_sweep []).
    intros n Hn. by apply elem_of_nil in Hn.
  - apply (skipping_absent_columns_is_no_skip small_sweep ["[run number]"]).
    intros n ->%list_elem_of_singleton. apply (bool_decide_unpack _). by vm_compute.
Defined.

(** X6: skipping composes: as long as the first list leaves a column
    of the file, skipping the labels of two lists at once is skipping the
    second list on the file without the columns of the first. *)
Theorem skipcols_compose `{SortValues} path skip1 skip2 :
  filter (λ c : column, c.1 ∉ skip1) path ≠ [] →
  read_sweep_csv_file path (Some (skip1 ++ skip2))
  = read_sweep_csv_file (filter (λ c : column, c.1 ∉ skip1) path) (Some skip2).
Proof.
  intros Hleft.
  assert (path ≠ []) as Hpath by (by intros ->).
  rewrite !read_sweep_csv_file_columns by done.
  unfold read_sweep_csv. f_equal. rewrite !frame_read_skip.
  rewrite list_filter_filter. apply filter_ext_elem_of. intros c _.
  rewrite elem_of_app. naive_solver.
Qed.

Lemma skipcols_compose_witness :
  read_sweep_csv_file small_sweep (Some (["extra"] ++ ["seed"]))
  = read_sweep_csv_file (filter (λ c : column, c.1 ∉ ["extra"]) small_sweep)
      (Some ["seed"]).
Proof.
  apply (skipcols_compose small_sweep ["extra"] ["seed"]).
  by vm_compute.
Defined.

(** The labels a dataset is built with are labels of the frame. *)
Lemma build_labels `{SortValues} df ds n :
  classify_and_build df = Ok ds →
  n ∈ dims ds ∨ n ∈ (data_vars ds).*1 ∨ is_Some (attrs ds !! n) →
  n ∈ columns df.
Proof.
  intros Hok Hn.
  destruct (classify_labels_subseteq df) as [Hc Hv].
  simpl in Hc, Hv. unfold classify_and_build in Hok.
  destruct (valid _); [|done].
  destruct (to_xarray _ _) as [ds'|e] eqn:Hx; [|done]. simpl in Hok.
  destruct (loc0 _ _) as [row0|e] eqn:Hloc; [|done]. simpl in Hok.
  injection Hok as <-. simpl in Hn.
  apply to_xarray_ok in Hx as (Hd & Hdv & Ha).
  rewrite Hd, Hdv, Ha, (right_id_L ∅ (∪)) in Hn.
  destruct Hn as [Hn|[Hn|Hn]].
  - apply Hc. by eapply select_labels_subseteq.
  - apply Hv. by eapply select_labels_subseteq.
  - apply meta_cols_subseteq. by eapply dict_zip_dom.
Qed.

(** X7: a result never shows a skipped column and never a label of its
    own making: every dimension, data variable and attribute key of what
    [read_sweep_csv] returns is the label of a column of the table, and is
    not in [skipcols]. *)
Theorem result_labels_are_retained_columns `{SortValues} path skipcols ds n :
  read_sweep_csv path skipcols = Ok ds →
  n ∈ dims ds ∨ n ∈ (data_vars ds).*1 ∨ is_Some (attrs ds !! n) →
  n ∈ columns path ∧ ∀ skip, skipcols = Some skip → n ∉ skip.
Proof.
  unfold read_sweep_csv. intros Hok Hn.
  pose proof (build_labels _ _ _ Hok Hn) as Hin.
  apply list_elem_of_fmap in Hin as (c & -> & Hc). split.
  - apply list_elem_of_fmap. exists c. split; [done|].
    by apply (frame_read_subseteq path skipcols).
  - intros skip ->. rewrite frame_read_skip in Hc.
    by apply list_elem_of_filter in Hc as [? _].
Qed.

Lemma result_labels_are_retained_columns_witness :
  ∃ ds, read_sweep_csv small_sweep (Some ["extra"]) = Ok ds
      ∧ ("extra" ∉ dims ds) ∧ ("extra" ∉ (data_vars ds).*1)
      ∧ attrs ds !! "extra" = None.
Proof.
  destruct (read_sweep_csv small_sweep (Some ["extra"])) as [ds|e] eqn:Hok;
    [|by vm_compute in Hok].
  exists ds.
  assert (∀ n, n ∈ dims ds ∨ n ∈ (data_vars ds).*1 ∨ is_Some (attrs ds !! n) →
               n ≠ "extra") as Hnot.
  { intros n Hn ->.
    destruct (result_labels_are_retained_columns small_sweep (Some ["extra"])
                ds "extra" Hok Hn) as [_ Hskip].
    apply (Hskip ["extra"] eq_refl). by left. }
  split_and!; [done|..].
  - intros Hn. by apply (Hnot "extra"); [left|].
  - intros Hn. by apply (Hnot "extra"); [right; left|].
  - destruct (attrs ds !! "extra") eqn:Ha; [|done].
    by destruct (Hnot "extra"); [right; right|].
Defined.

(** ** The grid is full *)

Lemma insert_all_dom `{Countable K} {V} (keys : list K) (vs : list V)
    (m : gmap K V) :
  length keys = length vs →
  dom (foldl (λ m kv, <[kv.1 := kv.2]> m) m (zip keys vs))
  = dom m ∪ list_to_set keys.
Proof.
  revert vs m. induction keys as [|k keys IH]; intros [|v vs] m Hlen;
    simplify_eq/=; [set_solver|].
  rewrite IH, dom_insert_L by done. set_solver.
Qed.

Lemma assign_size indexer vs :
  NoDup indexer → length indexer = length vs →
  size (assign indexer vs) = length indexer.
Proof.
  intros Hnd Hlen. unfold assign.
  rewrite <-size_dom, insert_all_dom, dom_empty_L, (left_id_L ∅ (∪)) by done.
  by apply size_list_to_set.
Qed.

Lemma select_subseteq (df : DataFrame) names : select df names ⊆ df.
Proof.
  intros c Hc. unfold select in Hc.
  apply list_elem_of_bind in Hc as (n & Hc & _).
  by apply list_elem_of_filter in Hc as [_ ?].
Qed.

(** The columns selected by the labels of some entries of the counts
    have the cardinalities of those entries. *)
Lemma selected_cardinalities (df : DataFrame) (taken : Series) :
  NoDup (columns df) → taken ⊆ unique_counts df →
  (λ c : column, length (pd_unique c.2)) <$> select df taken.*1 = taken.*2.
Proof.
  intros Hnd. induction taken as [|[n cnt] taken IH]; intros Hsub; [done|].
  assert ((n, cnt) ∈ unique_counts df) as Hin by (apply Hsub; left).
  apply list_elem_of_fmap in Hin as ([n' vals] & [= -> ->] & Hc).
  unfold select in *. rewrite fmap_cons, bind_cons. simpl.
  rewrite (filter_label_unique df n' vals) by done. simpl.
  f_equal. apply IH. intros x Hx. apply Hsub. by right.
Qed.

(** X9: the grid a successful call returns has no gap: for a table with
    distinct labels and a cell in every column on every row, each data
    variable has as many cells as the table has rows, and the lengths
    of its axes multiply to that number. *)
Theorem result_grid_is_full `{SortValues} path skipcols ds name arr :
  let df := frame_read path skipcols in
  NoDup (columns path) → rectangular df →
  read_sweep_csv path skipcols = Ok ds →
  (name, arr) ∈ data_vars ds →
  product (shape arr) = len df ∧ size (cells arr) = len df.
Proof.
  simpl. intros Hnd Hrect Hok Harr. unfold read_sweep_csv in Hok.
  apply (frame_read_NoDup _ skipcols) in Hnd.
  set (df := frame_read path skipcols) in *.
  destruct (build_ok df ds Hnd Hok) as (Hvalid & Hx & _).
  set (vc := sort_values (unique_counts df)) in *.
  destruct (classify_spec (len df) vc)
    as (k & Hk & Hcoord & Hvar & Hcp & Hbelow & Hstop & Hv).
  destruct (proj1 Hv Hvalid) as [_ Heq]. rewrite Hcp in Heq.
  assert (∀ c, c ∈ select df (coord (classify (len df) vc)) → length c.2 = len df)
    as Hindex.
  { intros c Hc%select_subseteq. by apply (proj1 (Forall_forall _ _) Hrect). }
  assert (∀ c, c ∈ select df (var (classify (len df) vc)) → length c.2 = len df)
    as Hdata.
  { intros c Hc%select_subseteq. by apply (proj1 (Forall_forall _ _) Hrect). }
  assert ((λ c : column, length (pd_unique c.2))
            <$> select df (coord (classify (len df) vc))
          = (take k (varying vc)).*2) as Hcards.
  { rewrite Hcoord. apply selected_cardinalities; [done|].
    intros x Hx'. apply elem_of_take in Hx' as (i & Hi & _).
    apply list_elem_of_lookup_2, list_elem_of_filter in Hi as [_ Hi].
    unfold vc in Hi. by rewrite sort_values_perm in Hi. }
  revert Hx Hindex Hcards.
  generalize (select df (coord (classify (len df) vc))) as index.
  intros index Hx Hindex Hcards. unfold to_xarray in Hx.
  destruct index as [|c1 [|c2 index]]; [done|..].
  - injection Hx as _ _ Hdv. rewrite <-Hdv in Harr.
    apply list_elem_of_fmap in Harr as (d & [= -> ->] & Hd). simpl.
    rewrite (Hindex c1) by left. split; [lia|].
    rewrite assign_size; rewrite ?length_fmap, ?length_seq; [done|..].
    + apply (NoDup_fmap_2 _), NoDup_seq.
    + symmetry. by apply Hdata.
  - case_decide as Hunique; [|done].
    injection Hx as _ _ Hdv. rewrite <-Hdv in Harr.
    apply list_elem_of_fmap in Harr as (d & [= -> ->] & Hd). simpl.
    rewrite !level_length. split.
    + rewrite <-Heq, <-Hcards. simpl. do 3 f_equal.
      clear. induction index as [|c index IH]; simpl; [done|].
      by rewrite level_length, IH.
    + assert (length (transpose (length c1.2)
                        ((λ c : column, codes c.2) <$> c1 :: c2 :: index))
              = len df) as Hlen.
      { rewrite (Hindex c1) by left. apply transpose_shape.
        apply Forall_fmap, Forall_forall. intros c Hc. simpl. unfold codes.
        rewrite length_fmap. by apply Hindex. }
      rewrite assign_size; [exact Hlen|exact Hunique|].
      etrans; [exact Hlen|]. symmetry. by apply Hdata.
Qed.

Lemma result_grid_is_full_witness :
  ∃ ds arr, read_sweep_csv small_sweep (Some ["extra"]) = Ok ds
          ∧ data_vars ds !! 0 = Some ("result", arr)
          ∧ product (shape arr) = 6 ∧ size (cells arr) = 6.
Proof.
  destruct (read_sweep_csv small_sweep (Some ["extra"])) as [ds|e] eqn:Hok;
    [|by vm_compute in Hok].
  assert (∃ arr, data_vars ds !! 0 = Some ("result", arr)) as [arr Harr].
  { vm_compute in Hok. injection Hok as <-. by eexists. }
  exists ds, arr.
  assert (NoDup (columns small_sweep)) as Hnd
    by (apply (bool_decide_unpack _); by vm_compute).
  assert (rectangular (frame_read small_sweep (Some ["extra"]))) as Hrect
    by (apply (bool_decide_unpack _); by vm_compute).
  split_and!; [done..| |];
    by apply (result_grid_is_full small_sweep (Some ["extra"]) ds "result" arr
                Hnd Hrect Hok (list_elem_of_lookup_2 _ _ _ Harr)).
Defined.

(** ** The order of the columns *)

(** The loop passes over the constant columns. *)
Lemma classify_varying n vc : classify n vc = classify n (varying vc).
Proof.
  unfold classify. generalize loop_init as st.
  induction vc as [|[col value] vc IH]; intros st; [done|].
  unfold varying. rewrite filter_cons. fold (varying vc).
  change (foldl ?f st (?x :: vc)) with (foldl f (f st x) vc).
  destruct (decide (value = 1)) as [Hone|Hone].
  - rewrite decide_False by (simpl; by intros ?).
    rewrite <-IH. f_equal. unfold loop_body. by rewrite decide_True.
  - rewrite decide_True by done. apply IH.
Qed.

Lemma sorted_distinct_counts (s : Series) :
  StronglySorted (λ x y : string * nat, x.2 ≤ y.2) s → NoDup s.*2 →
  StronglySorted (λ x y : string * nat, x.2 < y.2) s.
Proof.
  induction 1 as [|x s Hs IH Hx]; intros Hnd; [constructor|].
  rewrite fmap_cons in Hnd. apply NoDup_cons in Hnd as [Hfresh Hnd].
  constructor; [by apply IH|].
  apply Forall_forall. intros y Hy.
  pose proof (proj1 (Forall_forall _ _) Hx y Hy) as Hle. simpl in Hle.
  assert (x.2 ≠ y.2); [|lia].
  intros Heq. apply Hfresh. rewrite Heq. apply list_elem_of_fmap. by exists y.
Qed.

(** Two ascending arrangements of the same entries agree on the varying
    ones when no two of these have the same count. *)
Lemma varying_sorted_unique (vc1 vc2 : Series) :
  Sorted (λ x y : string * nat, x.2 ≤ y.2) vc1 →
  Sorted (λ x y : string * nat, x.2 ≤ y.2) vc2 →
  vc1 ≡ₚ vc2 → NoDup (varying vc1).*2 →
  varying vc1 = varying vc2.
Proof.
  intros Hs1 Hs2 Hperm Hnd.
  assert (Transitive (λ x y : string * nat, x.2 ≤ y.2)) by (intros ???; lia).
  assert (varying vc1 ≡ₚ varying vc2) as Hvperm
    by (unfold varying; by rewrite Hperm).
  apply sorted_by_count_unique; [|apply sorted_distinct_counts|done].
  - apply StronglySorted_Sorted, StronglySorted_filter.
    by apply Sorted_StronglySorted.
  - apply StronglySorted_filter. by apply Sorted_StronglySorted.
  - by rewrite <-Hvperm.
Qed.

Lemma filter_label_Permutation (df1 df2 : DataFrame) n :
  df1 ≡ₚ df2 → NoDup (columns df1) →
  filter (λ c : column, c.1 = n) df1 = filter (λ c : column, c.1 = n) df2.
Proof.
  intros Hperm Hnd1.
  assert (NoDup (columns df2)) as Hnd2 by (unfold columns in *; by rewrite <-Hperm).
  destruct (filter (λ c : column, c.1 = n) df1) as [|[n' vals] l] eqn:Hf1.
  - symmetry. apply Permutation_nil_r. by rewrite <-Hperm, Hf1.
  - assert ((n', vals) ∈ filter (λ c : column, c.1 = n) df1) as Hin
      by (rewrite Hf1; left).
    apply list_elem_of_filter in Hin as [Hn Hin]. simpl in Hn. subst n'.
    rewrite <-Hf1, (filter_label_unique df1 n vals) by done.
    symmetry. apply filter_label_unique; [done|]. by rewrite <-Hperm.
Qed.

Lemma select_Permutation (df1 df2 : DataFrame) names :
  df1 ≡ₚ df2 → NoDup (columns df1) → select df1 names = select df2 names.
Proof.
  intros Hperm Hnd. unfold select.
  induction names as [|n names IH]; [done|].
  by rewrite !bind_cons, IH, (filter_label_Permutation df1 df2).
Qed.

(** Every column of a rectangular frame with a row has a first cell. *)
Lemma loc0_rectangular df names :
  rectangular df → 1 ≤ len df → ∃ row0, loc0 df names = Ok row0.
Proof.
  intros Hrect Hrows. unfold loc0.
  destruct (mapM _ _) as [vs|] eqn:Hm; [by eexists|]. exfalso.
  assert (is_Some (mapM (λ c : column, c.2 !! 0) (select df names))) as [? Hs];
    [|by rewrite Hs in Hm].
  apply mapM_is_Some_2, Forall_forall. intros c Hc%select_subseteq. simpl.
  apply lookup_lt_is_Some_2.
  rewrite (proj1 (Forall_forall _ _) Hrect c Hc). lia.
Qed.

(** The attributes built from the constant labels [meta]: a label of
    [meta] gets the first cell of its column, any other key nothing. *)
Lemma meta_attrs_lookup df meta row0 k :
  NoDup (columns df) → NoDup meta → meta ⊆ columns df →
  loc0 df meta = Ok row0 →
  (k ∈ meta →
   ∃ vals v, (k, vals) ∈ df ∧ vals !! 0 = Some v
     ∧ dict_zip meta (AttrScalar <$> row0) !! k = Some (AttrScalar v))
  ∧ (k ∉ meta → dict_zip meta (AttrScalar <$> row0) !! k = None).
Proof.
  intros Hnd Hmeta Hsub Hloc. split.
  - intros [i Hi]%list_elem_of_lookup_1.
    pose proof (select_spec df meta Hnd Hsub) as Hsel.
    destruct (Forall2_lookup_l _ _ _ _ _ Hsel Hi) as ([k' vals] & Hc & Hk & Hin).
    simpl in Hk. subst k'.
    unfold loc0 in Hloc. destruct (mapM _ _) as [vs|] eqn:Hm; [|done].
    injection Hloc as ->. apply mapM_Some in Hm.
    destruct (Forall2_lookup_l _ _ _ _ _ Hm Hc) as (v & Hv & Hcell).
    exists vals, v. split_and!; [done..|].
    apply (dict_zip_lookup meta _ i); [done..|].
    by rewrite list_lookup_fmap, Hv.
  - intros Hk. destruct (dict_zip _ _ !! k) eqn:Hlookup; [|done].
    destruct Hk. by eapply dict_zip_dom.
Qed.

Lemma build_Permutation (S1 S2 : SortValues) df1 df2 :
  df1 ≡ₚ df2 → NoDup (columns df1) → rectangular df1 →
  NoDup (varying (unique_counts df1)).*2 →
  @classify_and_build S1 df1 = @classify_and_build S2 df2.
Proof.
  intros Hperm Hnd1 Hrect1 Hties.
  assert (NoDup (columns df2)) as Hnd2 by (unfold columns in *; by rewrite <-Hperm).
  assert (len df2 = len df1) as Hlen.
  { destruct df2 as [|c df2]; [by apply Permutation_nil_r in Hperm as ->|].
    simpl. apply (proj1 (Forall_forall _ _) Hrect1). rewrite Hperm. left. }
  assert (rectangular df2) as Hrect2.
  { apply Forall_forall. intros c Hc. rewrite Hlen.
    apply (proj1 (Forall_forall _ _) Hrect1). by rewrite Hperm. }
  assert (unique_counts df1 ≡ₚ unique_counts df2) as Hcounts
    by (unfold unique_counts; by rewrite Hperm).
  set (vc1 := @sort_values S1 (unique_counts df1)).
  set (vc2 := @sort_values S2 (unique_counts df2)).
  assert (vc1 ≡ₚ vc2) as Hvc
    by (unfold vc1, vc2; by rewrite !sort_values_perm).
  assert (varying vc1 = varying vc2) as Hvarying.
  { apply varying_sorted_unique; [apply sort_values_sorted..|done|].
    unfold vc1, varying. by rewrite sort_values_perm. }
  assert (classify (len df1) vc1 = classify (len df2) vc2) as Hst
    by by rewrite Hlen, (classify_varying _ vc1), (classify_varying _ vc2), Hvarying.
  assert (meta_cols vc1 ≡ₚ meta_cols vc2) as Hmeta
    by (unfold meta_cols; by rewrite Hvc).
  unfold classify_and_build. fold vc1 vc2. rewrite <-Hst.
  destruct (valid (classify (len df1) vc1)) eqn:Hvalid; [|done].
  pose proof (valid_two_rows _ _ Hvalid) as Hrows.
  rewrite <-!(select_Permutation df1 df2) by done.
  destruct (to_xarray _ _) as [ds|e]; [|done]. simpl.
  destruct (loc0_rectangular df1 (meta_cols vc1) Hrect1) as [row1 Hloc1]; [lia|].
  destruct (loc0_rectangular df2 (meta_cols vc2) Hrect2) as [row2 Hloc2]; [lia|].
  rewrite Hloc1, Hloc2. simpl. do 2 f_equal.
  assert (NoDup (meta_cols vc1)) as Hndm1.
  { pose proof (@roles_NoDup S1 df1 Hnd1) as Hroles. simpl in Hroles.
    rewrite app_assoc in Hroles. by apply NoDup_app in Hroles as (_ & _ & ?). }
  assert (NoDup (meta_cols vc2)) as Hndm2 by by rewrite <-Hmeta.
  apply (map_eq (M:=gmap string)). intros k.
  destruct (meta_attrs_lookup df1 (meta_cols vc1) row1 k Hnd1 Hndm1
              (@meta_cols_subseteq S1 df1) Hloc1) as [Hin1 Hout1].
  destruct (meta_attrs_lookup df2 (meta_cols vc2) row2 k Hnd2 Hndm2
              (@meta_cols_subseteq S2 df2) Hloc2) as [Hin2 Hout2].
  destruct (decide (k ∈ meta_cols vc1)) as [Hk|Hk].
  - destruct (Hin1 Hk) as (vals1 & v1 & Hc1 & Hv1 & ->).
    destruct Hin2 as (vals2 & v2 & Hc2 & Hv2 & ->); [by rewrite <-Hmeta|].
    rewrite <-Hperm in Hc2.
    pose proof (same_label_same_column df1 _ _ Hnd1 Hc1 Hc2 eq_refl) as Heq.
    by simplify_eq.
  - rewrite Hout1 by done. rewrite Hout2; [done|]. by rewrite <-Hmeta.
Qed.

(** X10: for a table with distinct labels, a cell in every column on
    every row, and no two varying columns of the same cardinality, the
    result of [read_sweep_csv] (dataset or exception) depends neither on
    the order of the columns in the file nor on the order [sort_values]
    leaves entries of equal count in. *)
Theorem column_order_is_immaterial_without_ties (S1 S2 : SortValues)
    path1 path2 skipcols :
  path1 ≡ₚ path2 →
  NoDup (columns path1) →
  rectangular (frame_read path1 skipcols) →
  NoDup (varying (unique_counts (frame_read path1 skipcols))).*2 →
  @read_sweep_csv S1 path1 skipcols = @read_sweep_csv S2 path2 skipcols.
Proof.
  intros Hperm Hnd Hrect Hties. unfold read_sweep_csv.
  apply build_Permutation; [|by apply frame_read_NoDup|done..].
  destruct skipcols as [skip|]; [|done].
  rewrite !frame_read_skip. by rewrite Hperm.
Qed.

Lemma column_order_is_immaterial_without_ties_witness :
  @read_sweep_csv stable_sort small_sweep (Some ["extra"])
  = @read_sweep_csv unstable_sort (reverse small_sweep) (Some ["extra"]).
Proof.
  apply column_order_is_immaterial_without_ties.
  - by rewrite reverse_Permutation.
  - apply (bool_decide_unpack _). by vm_compute.
  - apply (bool_decide_unpack _). by vm_compute.
  - apply (bool_decide_unpack _). by vm_compute.
Defined.

(** ** The two ways to fail *)

Lemma transpose_lookup {A} n (ls : list (list A)) i :
  i < n → transpose n ls !! i = mapM (λ l : list A, l !! i) ls.
Proof.
  intros Hi. induction ls as [|l ls IH]; simpl.
  - by rewrite lookup_replicate_2.
  - rewrite lookup_zip_with, IH. by destruct (l !! i).
Qed.

Lemma mapM_ext_Forall {A B} (f g : A → option B) (l : list A) :
  Forall (λ x, f x = g x) l → mapM f l = mapM g l.
Proof.
  induction 1 as [|x l Hx _ IH]; [done|]. simpl. by rewrite Hx, IH.
Qed.

Lemma classify_valid_coord n vc :
  valid (classify n vc) = true → coord (classify n vc) ≠ [].
Proof.
  intros Hvalid.
  destruct (classify_spec n vc) as (k & Hk & -> & _ & _ & _ & _ & Hv).
  destruct (proj1 Hv Hvalid) as [Hpos _].
  destruct k; [lia|]. destruct (varying vc); [simpl in Hk; lia|done].
Qed.

(** X11: on a frame with a cell in every column on every row,
    [read_sweep_csv] fails in two ways only: with its own shape error,
    when the running product never meets the row count, or, when it does
    and at least two coordinates were taken, with the [ValueError] of
    xarray for an index with a repeated tuple. *)
Theorem failure_modes `{SortValues} path skipcols e :
  let df := frame_read path skipcols in
  let st := classify (len df) (sort_values (unique_counts df)) in
  rectangular df →
  read_sweep_csv path skipcols = Raise e →
  (valid st = false ∧ e = RuntimeError shape_message)
  ∨ (valid st = true ∧ 2 ≤ length (select df (coord st))
     ∧ e = ValueError non_unique_message).
Proof.
  simpl. unfold read_sweep_csv. generalize (frame_read path skipcols) as df.
  intros df Hrect Hraise. unfold classify_and_build in Hraise.
  destruct (valid _) eqn:Hvalid; [right|left; by injection Hraise as <-].
  pose proof (valid_two_rows _ _ Hvalid) as Hrows.
  pose proof (classify_valid_coord _ _ Hvalid) as Hcoord.
  destruct (classify_labels_subseteq df) as [Hsub _]. simpl in Hsub.
  destruct (to_xarray _ _) as [ds|e'] eqn:Hx.
  - simpl in Hraise.
    destruct (loc0_rectangular df
                (meta_cols (sort_values (unique_counts df))) Hrect)
      as [row0 Hloc]; [lia|].
    by rewrite Hloc in Hraise.
  - injection Hraise as <-. unfold to_xarray in Hx.
    destruct (coord _) as [|n names]; [done|].
    destruct (select df (n :: names)) as [|c1 [|c2 index]] eqn:Hsel.
    + by destruct (select_nonempty df n names); [apply Hsub; left|].
    + done.
    + case_decide; [done|]. injection Hx as <-. split_and!; [done|simpl; lia|done].
Qed.

Lemma failure_modes_witness :
  read_sweep_csv ten_rows None = Raise (RuntimeError shape_message)
  ∧ read_sweep_csv repeated_pairs None = Raise (ValueError non_unique_message).
Proof.
  assert (rectangular (frame_read ten_rows None)) as Hrect1
    by (apply (bool_decide_unpack _); by vm_compute).
  assert (rectangular (frame_read repeated_pairs None)) as Hrect2
    by (apply (bool_decide_unpack _); by vm_compute).
  destruct (read_sweep_csv ten_rows None) as [ds|e1] eqn:H1;
    [by vm_compute in H1|].
  destruct (read_sweep_csv repeated_pairs None) as [ds|e2] eqn:H2;
    [by vm_compute in H2|].
  destruct (failure_modes ten_rows None e1 Hrect1 H1) as [[_ ->]|[Hv _]];
    [|by vm_compute in Hv].
  destruct (failure_modes repeated_pairs None e2 Hrect2 H2) as [[Hv _]|(_ & _ & ->)];
    [by vm_compute in Hv|].
  done.
Defined.

(** X12: the product check does not see repeated coordinates: on a
    table with distinct labels and a cell in every column on every row,
    when the running product meets the row count with two or more
    coordinates and two rows agree on every coordinate, the call raises
    the [ValueError] of xarray instead of returning a dataset. *)
Theorem repeated_coordinates_raise `{SortValues} path skipcols i j :
  let df := frame_read path skipcols in
  let st := classify (len df) (sort_values (unique_counts df)) in
  NoDup (columns path) → rectangular df →
  valid st = true → 2 ≤ length (coord st) →
  i < j < len df →
  (∀ name vals, (name, vals) ∈ df → name ∈ coord st → vals !! i = vals !! j) →
  read_sweep_csv path skipcols = Raise (ValueError non_unique_message).
Proof.
  simpl. intros Hnd Hrect Hvalid Hcoords Hij Hsame. unfold read_sweep_csv.
  apply (frame_read_NoDup _ skipcols) in Hnd.
  set (df := frame_read path skipcols) in *.
  set (st := classify (len df) (sort_values (unique_counts df))) in *.
  destruct (classify_labels_subseteq df) as [Hsub _]. simpl in Hsub. fold st in Hsub.
  pose proof (select_spec df (coord st) Hnd Hsub) as Hsel.
  pose proof (Forall2_length _ _ _ Hsel) as Hlen.
  unfold classify_and_build. fold st. rewrite Hvalid.
  assert (to_xarray (select df (coord st)) (select df (var st))
          = Raise (ValueError non_unique_message)) as ->; [|done].
  assert (∀ c, c ∈ select df (coord st) →
            length c.2 = len df ∧ c.2 !! i = c.2 !! j) as Hindex.
  { intros c Hc. apply list_elem_of_lookup_1 in Hc as [p Hp].
    destruct (Forall2_lookup_r _ _ _ _ _ Hsel Hp) as (n & Hn & Hcn & Hcin).
    split; [by apply (proj1 (Forall_forall _ _) Hrect)|].
    apply (Hsame c.1); [by destruct c|].
    rewrite Hcn. by eapply list_elem_of_lookup_2. }
  revert Hlen Hindex. generalize (select df (coord st)) as index.
  intros index Hlen Hindex. unfold to_xarray.
  destruct index as [|c1 [|c2 index]]; [simpl in Hlen; lia..|].
  rewrite decide_False; [done|]. intros Hunique.
  set (ls := (λ c : column, codes c.2) <$> c1 :: c2 :: index) in *.
  assert (len (c1 :: c2 :: index) = len df) as Hn
    by (simpl; apply Hindex; left).
  rewrite Hn in Hunique.
  assert (mapM (λ l : list nat, l !! i) ls = mapM (λ l : list nat, l !! j) ls)
    as Hrows.
  { apply mapM_ext_Forall, Forall_fmap, Forall_forall. intros c Hc. simpl.
    unfold codes. by rewrite !list_lookup_fmap, (proj2 (Hindex c Hc)). }
  assert (is_Some (mapM (λ l : list nat, l !! i) ls)) as [key Hkey].
  { apply mapM_is_Some_2, Forall_fmap, Forall_forall. intros c Hc. simpl.
    apply lookup_lt_is_Some_2. unfold codes. rewrite length_fmap.
    rewrite (proj1 (Hindex c Hc)). lia. }
  assert (i = j); [|lia].
  apply (NoDup_lookup _ i j key Hunique);
    rewrite transpose_lookup by lia; [done|by rewrite <-Hrows].
Qed.

Lemma repeated_coordinates_raise_witness :
  read_sweep_csv repeated_pairs None = Raise (ValueError non_unique_message).
Proof.
  apply (repeated_coordinates_raise repeated_pairs None 0 1).
  - apply (bool_decide_unpack _). by vm_compute.
  - apply (bool_decide_unpack _). by vm_compute.
  - by vm_compute.
  - vm_compute. lia.
  - vm_compute. lia.
  - intros name vals Hin Hcoord.
    change (frame_read repeated_pairs None) with repeated_pairs in Hin.
    unfold repeated_pairs in Hin.
    repeat (apply elem_of_cons in Hin as [[= -> ->]|Hin]; [try done|]).
    + revert Hcoord. by vm_compute; intros Hc; set_solver.
    + by apply elem_of_nil in Hin.
Defined.
